(** * VastuAi: chart calculation, chart model, heading matcher, chunker,
      rule store and birth-data gate

    A shallow embedding of the Python sources

      - [src/calculation/horoscope.py]     (module [HoroscopeCalculator])
      - [src/calculation/house_system.py]  (module [LalKitabHouseSystem])
      - [src/ingestion/regex_parser.py]    (module [RegexParser])
      - [src/ingestion/chunker.py]         (module [LalKitabChunker])
      - [src/ingestion/embeddings.py]      (module [EmbeddingsGenerator])
      - [src/retrieval/pinecone_client.py] (module [PineconeClient])
      - [app.py]                           (module [App])

    together with the fragments of the Python run time they rely on:
    [str] methods, insertion-ordered [dict]s, binary64 [float]
    arithmetic and the backtracking matcher of [re]. *)

From Stdlib Require Import Ascii String.
From Stdlib Require Import DecimalString DecimalPos DecimalN DecimalZ.
From Stdlib Require Import Floats.SpecFloat.
From Stdlib Require Import Bool Arith ZArith NArith Lia.
From Stdlib Require Import List.
Import ListNotations.

Local Open Scope list_scope.
Local Open Scope Z_scope.

(* ================================================================= *)
(** * Exceptions *)

(** Python exceptions that the modelled code can raise or catch.  A
    computation that may raise returns a [result]. *)
Inductive exn : Type :=
| ValueError
| OverflowError
| ZeroDivisionError
| KeyError (key : list ascii)
| AttributeError
| IndexError
| RuntimeError (msg : list ascii)
| ServiceError (msg : list ascii).

Inductive result (A : Type) : Type :=
| Ok (a : A)
| Raise (e : exn).

Arguments Ok {A} a.
Arguments Raise {A} e.

Definition bind {A B : Type} (r : result A) (k : A -> result B) : result B :=
  match r with
  | Ok a => k a
  | Raise e => Raise e
  end.

Notation "x <- r ;; k" := (bind r (fun x => k))
  (at level 61, r at next level, right associativity).

(* ================================================================= *)
(** * Python [str]

    Text is modelled as a list of 8-bit characters read as the code
    points 0..255 (Latin-1); the character classes below are those of
    Python 3 on that range.  Documents with characters outside this
    range are not covered: what is proved of the matcher and of the
    chunker is proved of the results they return on such text. *)

Module PyStr.

Definition str : Type := list ascii.

(** String literals. *)
Definition lit (s : string) : str := list_ascii_of_string s.
Arguments lit s%_string.

Definition code (c : ascii) : N := N_of_ascii c.

Definition in_range (lo hi : N) (c : ascii) : bool :=
  ((lo <=? code c) && (code c <=? hi))%N.

(** [c.isspace()], also the class [\s]: TAB..CR, FS..US, space, NEL
    and the no-break space. *)
Definition isspace (c : ascii) : bool :=
  in_range 9 13 c || in_range 28 32 c || (code c =? 133)%N || (code c =? 160)%N.

(** [c.isdecimal()], also the class [\d]. *)
Definition isdigit (c : ascii) : bool := in_range 48 57 c.

Definition shift_code (d : Z) (c : ascii) : ascii :=
  ascii_of_N (Z.to_N (Z.of_N (code c) + d)).

(** [c.lower()]: [A-Z] and the Latin-1 capitals (codes 192..222) without
    the multiplication sign (215). *)
Definition lower_char (c : ascii) : ascii :=
  if in_range 65 90 c || (in_range 192 222 c && negb (code c =? 215)%N)
  then shift_code 32 c else c.

(** [c.upper()] on ASCII letters.  It is only applied to text matched
    by the groups of the heading pattern, which is ASCII. *)
Definition upper_char (c : ascii) : ascii :=
  if in_range 97 122 c then shift_code (-32) c else c.

Definition lower (s : str) : str := map lower_char s.
Definition upper (s : str) : str := map upper_char s.

Definition capitalize (s : str) : str :=
  match s with
  | [] => []
  | c :: s' => upper_char c :: map lower_char s'
  end.

Fixpoint lstrip (s : str) : str :=
  match s with
  | c :: s' => if isspace c then lstrip s' else s
  | [] => []
  end.

Definition rstrip (s : str) : str := rev (lstrip (rev s)).

Definition strip (s : str) : str := rstrip (lstrip s).

(** [s[a:b]] for [0 <= a], [0 <= b], on strings and lists. *)
Definition slice {A} (a b : nat) (s : list A) : list A :=
  firstn (b - a) (skipn a s).

Definition eqb (s t : str) : bool :=
  if list_eq_dec ascii_dec s t then true else false.

Definition digit_value (c : ascii) : Z := Z.of_N (code c) - 48.

(** The interpreter's limit on the number of digits in a conversion
    between [int] and [str], at its default value
    ([sys.int_info.default_max_str_digits]). *)
Definition max_str_digits : nat := 4300.

(** [int(s)] for a non-empty string of decimal digits of at most
    [max_str_digits] characters, leading zeros included; a longer run
    of digits is a [ValueError], and so is anything else here (the
    interpreter also accepts a sign and padding, which text matched by
    [\d+] never has). *)
Definition int (s : str) : result Z :=
  match s with
  | [] => Raise ValueError
  | _ => if forallb isdigit s
         then if (length s <=? max_str_digits)%nat
              then Ok (fold_left (fun acc c => 10 * acc + digit_value c) s 0)
              else Raise ValueError
         else Raise ValueError
  end.

(** The decimal numeral of an integer [n]: what [str(n)] and an
    f-string give for an [n] within the digit limit. *)
Definition of_int (n : Z) : str := lit (NilZero.string_of_int (Z.to_int n)).

(** [str(n)], also [f"{n}"]: the numeral of [n], or a [ValueError] when
    it has more than [max_str_digits] digits (the sign is not
    counted). *)
Definition str_of_int (n : Z) : result str :=
  if (length (of_int (Z.abs n)) <=? max_str_digits)%nat
  then Ok (of_int n)
  else Raise ValueError.

(** [str(e)] for an exception [e]. *)
Definition exn_str (e : exn) : str :=
  match e with
  | RuntimeError msg | ServiceError msg => msg
  | KeyError k => lit "'" ++ k ++ lit "'"
  | _ => []
  end.

End PyStr.

(* ================================================================= *)
(** * Python [dict]

    An insertion-ordered association list; [wf] says that the keys are
    pairwise distinct, which every Python dict satisfies. *)

Module PyDict.
Import PyStr.

Definition dict (V : Type) : Type := list (str * V).

Definition wf {V} (d : dict V) : Prop := NoDup (map fst d).

Definition items {V} (d : dict V) : list (str * V) := d.
Definition keys {V} (d : dict V) : list str := map fst d.

Fixpoint get {V} (d : dict V) (k : str) : option V :=
  match d with
  | [] => None
  | (k', v) :: d' => if PyStr.eqb k' k then Some v else get d' k
  end.

(** [k in d] *)
Definition contains {V} (d : dict V) (k : str) : bool :=
  match get d k with Some _ => true | None => false end.

(** [d[k]] *)
Definition getitem {V} (d : dict V) (k : str) : result V :=
  match get d k with Some v => Ok v | None => Raise (KeyError k) end.

(** [d.get(k, default)] *)
Definition get_default {V} (d : dict V) (k : str) (default : V) : V :=
  match get d k with Some v => v | None => default end.

(** [d[k] = v]: overwrite in place, or append a new key. *)
Fixpoint setitem {V} (d : dict V) (k : str) (v : V) : dict V :=
  match d with
  | [] => [(k, v)]
  | (k', v') :: d' =>
      if PyStr.eqb k' k then (k', v) :: d' else (k', v') :: setitem d' k v
  end.

(** [del d[k]] *)
Definition delitem {V} (d : dict V) (k : str) : dict V :=
  filter (fun kv => negb (PyStr.eqb (fst kv) k)) d.

End PyDict.

(* ================================================================= *)
(** * Python [float]: IEEE 754 binary64 *)

Module PyFloat.

Definition prec : Z := 53.
Definition emax : Z := 1024.

(** A Python float is a [spec_float] that is a valid binary64. *)
Definition float : Type := spec_float.
Definition is_float (x : float) : Prop := valid_binary prec emax x = true.

Definition of_Z (z : Z) : float := binary_normalize prec emax z 0 false.

Definition add : float -> float -> float := SFadd prec emax.
Definition sub : float -> float -> float := SFsub prec emax.
Definition div : float -> float -> float := SFdiv prec emax.
Definition ltb : float -> float -> bool := SFltb.
Definition leb : float -> float -> bool := SFleb.

Definition is_zero (x : float) : bool :=
  match x with S754_zero _ => true | _ => false end.

(** C's [fmod]: the exact remainder of [x / y] with the sign of
    [x].  For finite operands both are scaled to the smaller
    exponent and the remainder of the integer mantissas is taken; the
    result is representable, so the final normalisation is exact. *)
Definition fmod (x y : float) : float :=
  match x, y with
  | S754_nan, _ | _, S754_nan => S754_nan
  | S754_infinity _, _ => S754_nan
  | _, S754_zero _ => S754_nan
  | S754_zero _, _ => x
  | S754_finite _ _ _, S754_infinity _ => x
  | S754_finite sx mx ex, S754_finite _ my ey =>
      let ez := Z.min ex ey in
      let X := Zpos (fst (shl_align mx ex ez)) in
      let Y := Zpos (fst (shl_align my ey ez)) in
      binary_normalize prec emax (cond_Zopp sx (Z.rem X Y)) ez sx
  end.

(** [v % w] on floats, as the interpreter's [float_rem] computes it:
    [fmod], then the divisor is added once when the signs differ, and a
    zero remainder takes the sign of the divisor. *)
Definition rem (v w : float) : result float :=
  if is_zero w then Raise ZeroDivisionError
  else
    let m := fmod v w in
    if is_zero m then Ok (S754_zero (ltb w (S754_zero false)))
    else if negb (Bool.eqb (ltb w (S754_zero false)) (ltb m (S754_zero false)))
         then Ok (add m w)
         else Ok m.

(** [v / w] on floats. *)
Definition truediv (v w : float) : result float :=
  if is_zero w then Raise ZeroDivisionError else Ok (div v w).

(** [int(x)]: truncation towards zero. *)
Definition to_int (x : float) : result Z :=
  match x with
  | S754_nan => Raise ValueError
  | S754_infinity _ => Raise OverflowError
  | S754_zero _ => Ok 0
  | S754_finite s m e =>
      Ok (cond_Zopp s (match e with
                       | Zneg p => Z.shiftr (Zpos m) (Zpos p)
                       | _ => Z.shiftl (Zpos m) e
                       end))
  end.

End PyFloat.

(* ================================================================= *)
(** * Python [re]: a backtracking matcher

    The fragment of regular expressions the heading pattern is written
    in, interpreted under the flags [re.MULTILINE | re.IGNORECASE].  The
    matcher is in continuation-passing style: alternatives are tried
    left to right, repetition and option are greedy, and a failing
    continuation makes the matcher backtrack, as the [re] engine does. *)

Module Re.
Import PyStr.

Inductive regex : Type :=
| Eps
| Bol                          (* ^ *)
| Chr (c : ascii)              (* a literal character *)
| Cls (p : ascii -> bool)      (* a character class *)
| Seq (r1 r2 : regex)
| Alt (r1 r2 : regex)          (* r1|r2 *)
| Plus (p : ascii -> bool)     (* class+ *)
| Opt (r : regex)              (* r? *)
| Group (n : nat) (r : regex). (* capturing group number n *)

(** The literal string [s]. *)
Fixpoint chars (s : str) : regex :=
  match s with
  | [] => Eps
  | [c] => Chr c
  | c :: s' => Seq (Chr c) (chars s')
  end.

(** [r1|r2|...|rn|r] *)
Fixpoint alts (rs : list regex) (r : regex) : regex :=
  match rs with
  | [] => r
  | r' :: rs' => Alt r' (alts rs' r)
  end.

(** The position of the matcher in the subject: the offset, the
    character before it (for [^]), the text still ahead, and the
    groups captured so far, latest first. *)
Record cursor : Type := {
  pos : nat;
  prev : option ascii;
  rest : str;
  caps : list (nat * str)
}.

(** [^] under MULTILINE: at the start of the subject or just after a
    line feed. *)
Definition at_bol (p : option ascii) : bool :=
  match p with
  | None => true
  | Some c => (code c =? 10)%N
  end.

(** Literal characters compare modulo case under IGNORECASE. *)
Definition chr_eqb (c x : ascii) : bool :=
  (code (lower_char x) =? code (lower_char c))%N.

Definition advance (x : ascii) (s' : str) (c : cursor) : cursor :=
  {| pos := S (pos c); prev := Some x; rest := s'; caps := caps c |}.

(** Greedy [class*]: take as many characters as possible, give one
    back each time the continuation fails. *)
Fixpoint star (p : ascii -> bool) (s : str) (c : cursor)
    (k : cursor -> option cursor) : option cursor :=
  match s with
  | x :: s' =>
      if p x then
        match star p s' (advance x s' c) k with
        | Some res => Some res
        | None => k c
        end
      else k c
  | [] => k c
  end.

Fixpoint run (r : regex) (c : cursor) (k : cursor -> option cursor)
    : option cursor :=
  match r with
  | Eps => k c
  | Bol => if at_bol (prev c) then k c else None
  | Chr a =>
      match rest c with
      | x :: s' => if chr_eqb a x then k (advance x s' c) else None
      | [] => None
      end
  | Cls p =>
      match rest c with
      | x :: s' => if p x then k (advance x s' c) else None
      | [] => None
      end
  | Seq r1 r2 => run r1 c (fun c1 => run r2 c1 k)
  | Alt r1 r2 =>
      match run r1 c k with
      | Some res => Some res
      | None => run r2 c k
      end
  | Plus p =>
      match rest c with
      | x :: s' => if p x then star p s' (advance x s' c) k else None
      | [] => None
      end
  | Opt r1 =>
      match run r1 c k with
      | Some res => Some res
      | None => k c
      end
  | Group n r1 =>
      run r1 c (fun c1 =>
        k {| pos := pos c1; prev := prev c1; rest := rest c1;
             caps := (n, firstn (pos c1 - pos c) (rest c)) :: caps c1 |})
  end.

(** A match object. *)
Record match_object : Type := {
  m_start : nat;
  m_end : nat;
  m_group0 : str;
  m_groups : list (nat * str)
}.

(** [m.group(n)] for [n >= 1]; [None] when the group took no part. *)
Fixpoint lookup (n : nat) (gs : list (nat * str)) : option str :=
  match gs with
  | [] => None
  | (n', w) :: gs' => if Nat.eqb n' n then Some w else lookup n gs'
  end.

Definition group (m : match_object) (n : nat) : option str :=
  match n with
  | O => Some (m_group0 m)
  | _ => lookup n (m_groups m)
  end.

(** One attempt to match [r] at offset [p] of the subject, [s] being
    the text from [p] on and [pv] the character before it. *)
Definition match_here (r : regex) (pv : option ascii) (p : nat) (s : str)
    : option match_object :=
  match run r {| pos := p; prev := pv; rest := s; caps := [] |} Some with
  | Some c => Some {| m_start := p; m_end := pos c;
                      m_group0 := firstn (pos c - p) s;
                      m_groups := caps c |}
  | None => None
  end.

(** [r.finditer(text)]: the leftmost match from each offset on, the
    scan resuming where the previous match ended ([skip] counts the
    characters of the current match still to pass over).  An empty
    match advances the scan by one character. *)
Fixpoint scan (r : regex) (pv : option ascii) (p : nat) (skip : nat) (s : str)
    : list match_object :=
  match s with
  | [] =>
      match skip with
      | O => match match_here r pv p [] with
             | Some m => [m]
             | None => []
             end
      | S _ => []
      end
  | x :: s' =>
      match skip with
      | S n => scan r (Some x) (S p) n s'
      | O =>
          match match_here r pv p s with
          | Some m => m :: scan r (Some x) (S p) (Nat.pred (m_end m - p)) s'
          | None => scan r (Some x) (S p) O s'
          end
      end
  end.

Definition finditer (r : regex) (text : str) : list match_object :=
  scan r None O O text.

End Re.

(* ================================================================= *)
(** * [src/ingestion/regex_parser.py] *)

Module RegexParser.
Import PyStr Re.

Definition PLANETS : list str :=
  [lit "Sun"; lit "Moon"; lit "Mars"; lit "Mercury"; lit "Jupiter";
   lit "Venus"; lit "Saturn"; lit "Rahu"; lit "Ketu"].

Definition word (s : string) : regex := chars (lit s).

(** [[Hh]] *)
Definition cls_Hh (c : ascii) : bool := chr_eqb "H" c.

(** <<
    ^(Sun|Moon|Mars|Mercury|Jupiter|Venus|Saturn|Rahu|Ketu)\s+in\s+(\d+|I)(?:st|nd|rd|th)?\s+[Hh]ouse
    >> *)
Definition planet_house_pattern : regex :=
  Seq Bol
 (Seq (Group 1 (alts [word "Sun"; word "Moon"; word "Mars"; word "Mercury";
                      word "Jupiter"; word "Venus"; word "Saturn"; word "Rahu"]
                     (word "Ketu")))
 (Seq (Plus isspace)
 (Seq (word "in")
 (Seq (Plus isspace)
 (Seq (Group 2 (Alt (Plus isdigit) (Chr "I")))
 (Seq (Opt (alts [word "st"; word "nd"; word "rd"] (word "th")))
 (Seq (Plus isspace)
 (Seq (Cls cls_Hh)
      (word "ouse"))))))))).

(** A heading occurrence: the dict built for each match. *)
Record heading : Type := {
  planet : str;
  house : Z;
  start_pos : nat;
  end_pos : nat;
  match_text : str
}.

(** [m.group(n)] followed by a method call: a group that took no part
    is [None], and the call on it raises. *)
Definition group_str (m : match_object) (n : nat) : result str :=
  match group m n with
  | Some w => Ok w
  | None => Raise AttributeError
  end.

(** The body of the loop over [finditer]. *)
Definition heading_of_match (m : match_object) : result heading :=
  g1 <- group_str m 1 ;;
  let planet := capitalize g1 in
  house_str <- group_str m 2 ;;
  house <- (if PyStr.eqb (upper house_str) (lit "I") then Ok 1 else int house_str) ;;
  Ok {| planet := planet;
        house := house;
        start_pos := m_start m;
        end_pos := m_end m;
        match_text := m_group0 m |}.

Fixpoint collect (ms : list match_object) : result (list heading) :=
  match ms with
  | [] => Ok []
  | m :: ms' =>
      h <- heading_of_match m ;;
      hs <- collect ms' ;;
      Ok (h :: hs)
  end.

Definition find_all_planet_house_headings (text : str) : result (list heading) :=
  collect (finditer planet_house_pattern text).

End RegexParser.

(* ================================================================= *)
(** * [src/ingestion/chunker.py] *)

Module LalKitabChunker.
Import PyStr.

Record chunk : Type := {
  planet : str;
  house : Z;
  heading : str;
  content : str;
  char_count : nat
}.

(** [l[i]] *)
Definition getitem_list {A} (l : list A) (i : nat) : result A :=
  match nth_error l i with
  | Some a => Ok a
  | None => Raise IndexError
  end.

(** [enumerate(l)] *)
Definition enumerate {A} (l : list A) : list (nat * A) :=
  combine (seq 0 (length l)) l.

(** The body of the loop of [extract_chunks]. *)
Definition chunk_at (text : str) (headings : list RegexParser.heading)
    (i : nat) (h : RegexParser.heading) : result chunk :=
  let start_pos := RegexParser.start_pos h in
  end_pos <- (if (i <? length headings - 1)%nat
              then nxt <- getitem_list headings (i + 1) ;;
                   Ok (RegexParser.start_pos nxt)
              else Ok (length text)) ;;
  let chunk_text := strip (slice start_pos end_pos text) in
  Ok {| planet := RegexParser.planet h;
        house := RegexParser.house h;
        heading := RegexParser.match_text h;
        content := chunk_text;
        char_count := length chunk_text |}.

Fixpoint chunks_loop (text : str) (headings : list RegexParser.heading)
    (ihs : list (nat * RegexParser.heading)) : result (list chunk) :=
  match ihs with
  | [] => Ok []
  | (i, h) :: ihs' =>
      c <- chunk_at text headings i h ;;
      cs <- chunks_loop text headings ihs' ;;
      Ok (c :: cs)
  end.

Definition extract_chunks (text : str) : result (list chunk) :=
  headings <- RegexParser.find_all_planet_house_headings text ;;
  match headings with
  | [] => Ok []
  | _ => chunks_loop text headings (enumerate headings)
  end.

End LalKitabChunker.

(* ================================================================= *)
(** * [src/calculation/house_system.py] *)

Module LalKitabHouseSystem.
Import PyStr PyDict.

Definition required_planets : list str :=
  [lit "Sun"; lit "Moon"; lit "Mars"; lit "Mercury";
   lit "Jupiter"; lit "Venus"; lit "Saturn"; lit "Rahu"; lit "Ketu"].

(** The loop of [validate_chart] over the planets still to check. *)
Fixpoint validate_loop (chart : dict Z) (planets : list str) : result bool :=
  match planets with
  | [] => Ok true
  | planet :: planets' =>
      if negb (contains chart planet) then Ok false
      else
        house <- getitem chart planet ;;
        if negb ((1 <=? house) && (house <=? 12)) then Ok false
        else validate_loop chart planets'
  end.

Definition validate_chart (chart : dict Z) : result bool :=
  validate_loop chart required_planets.

(** [[planet for planet, h in chart.items() if h == house]] *)
Definition get_planets_in_house (chart : dict Z) (house : Z) : list str :=
  map fst (filter (fun ph => snd ph =? house) (items chart)).

End LalKitabHouseSystem.

(* ================================================================= *)
(** * [src/calculation/horoscope.py] *)

Module HoroscopeCalculator.
Import PyStr PyDict PyFloat.

(** Body identifiers of the Swiss Ephemeris binding. *)
Definition SUN : Z := 0.
Definition MOON : Z := 1.
Definition MERCURY : Z := 2.
Definition VENUS : Z := 3.
Definition MARS : Z := 4.
Definition JUPITER : Z := 5.
Definition SATURN : Z := 6.
Definition MEAN_NODE : Z := 10.

Definition PLANETS : dict Z :=
  [(lit "Sun", SUN); (lit "Moon", MOON); (lit "Mars", MARS);
   (lit "Mercury", MERCURY); (lit "Jupiter", JUPITER); (lit "Venus", VENUS);
   (lit "Saturn", SATURN); (lit "Rahu", MEAN_NODE); (lit "Ketu", MEAN_NODE)].

(** [degree_to_house(planet_degree, ascendant_degree)]:
<<
    distance = (planet_degree - ascendant_degree) % 360
    house = int(distance / 30) + 1
>> *)
Definition degree_to_house (planet_degree ascendant_degree : float) : result Z :=
  distance <- rem (sub planet_degree ascendant_degree) (of_Z 360) ;;
  q <- truediv distance (of_Z 30) ;;
  n <- to_int q ;;
  Ok (n + 1).

Record datetime : Type := {
  year : Z; month : Z; day : Z; hour : Z; minute : Z
}.

Section Ephemeris.

(** The collaborators outside the repository: [datetime.strptime]
    with the format ["%Y-%m-%d %H:%M"], the ephemeris calls
    [swe.julday], [swe.houses(..)[1][0]] and [swe.calc_ut(..)[0][0]],
    and the geocoder. *)
Variable strptime : str -> result datetime.
Variable swe_julday : Z -> Z -> Z -> float -> float.
Variable swe_houses_asc : float -> float -> float -> result float.
Variable swe_calc_ut : float -> Z -> result float.
Variable get_coordinates : str -> result (option (float * float)).

Definition calculate_julian_day (year month day hour minute : Z)
    (timezone_offset : float) : float :=
  let utc_hour := sub (of_Z hour) timezone_offset in
  swe_julday year month day (add utc_hour (div (of_Z minute) (of_Z 60))).

Definition calculate_ascendant (jd latitude longitude : float) : result float :=
  swe_houses_asc jd latitude longitude.

Definition calculate_planet_position (planet_id : Z) (jd : float) : result float :=
  swe_calc_ut jd planet_id.

(** One iteration of the loop over [PLANETS.items()]. *)
Definition place_planet (jd ascendant : float) (planet_name : str)
    (planet_id : Z) : result Z :=
  if PyStr.eqb planet_name (lit "Ketu") then
    rahu_degree <- calculate_planet_position planet_id jd ;;
    ketu_degree <- rem (add rahu_degree (of_Z 180)) (of_Z 360) ;;
    degree_to_house ketu_degree ascendant
  else
    planet_degree <- calculate_planet_position planet_id jd ;;
    degree_to_house planet_degree ascendant.

Fixpoint chart_loop (jd ascendant : float) (planets : list (str * Z))
    (chart : dict Z) : result (dict Z) :=
  match planets with
  | [] => Ok chart
  | (planet_name, planet_id) :: planets' =>
      house <- place_planet jd ascendant planet_name planet_id ;;
      chart_loop jd ascendant planets' (setitem chart planet_name house)
  end.

Definition calculate_chart (date time : str) (latitude longitude : float)
    (timezone_offset : float) : result (dict Z) :=
  dt <- strptime (date ++ lit " " ++ time) ;;
  let jd := calculate_julian_day (year dt) (month dt) (day dt)
              (hour dt) (minute dt) timezone_offset in
  ascendant <- calculate_ascendant jd latitude longitude ;;
  chart_loop jd ascendant (items PLANETS) [].

Definition calculate_chart_by_place (date time place_name : str)
    (timezone_offset : float) : result (dict Z) :=
  coords <- get_coordinates place_name ;;
  match coords with
  | None =>
      Raise (RuntimeError
               (lit "Could not find coordinates for '" ++ place_name ++
                lit "'. Please check the spelling or provide coordinates manually."))
  | Some (latitude, longitude) =>
      calculate_chart date time latitude longitude timezone_offset
  end.

End Ephemeris.

End HoroscopeCalculator.

(* ================================================================= *)
(** * [src/ingestion/embeddings.py] *)

Module EmbeddingsGenerator.
Import PyStr PyFloat.

(** A chunk with the ['embedding'] key added. *)
Record embedded_chunk : Type := {
  chunk : LalKitabChunker.chunk;
  embedding : list float
}.

Section Embedder.

(** The embedding service:
    [client.models.embed_content(..).embeddings[0].values]. *)
Variable embed_content : str -> result (list float).

Definition generate_embedding (text : str) : result (list float) :=
  match embed_content text with
  | Ok v => Ok v
  | Raise e => Raise (RuntimeError (lit "Error generating embedding: " ++ exn_str e))
  end.

Fixpoint generate_embeddings_batch (texts : list str) : result (list (list float)) :=
  match texts with
  | [] => Ok []
  | text :: texts' =>
      embedding <- generate_embedding text ;;
      embeddings <- generate_embeddings_batch texts' ;;
      Ok (embedding :: embeddings)
  end.

Definition embed_chunks (chunks : list LalKitabChunker.chunk)
    : result (list embedded_chunk) :=
  let texts := map LalKitabChunker.content chunks in
  embeddings <- generate_embeddings_batch texts ;;
  Ok (map (fun ce => {| chunk := fst ce; embedding := snd ce |})
          (combine chunks embeddings)).

End Embedder.

End EmbeddingsGenerator.

(* ================================================================= *)
(** * [src/retrieval/pinecone_client.py] *)

Module PineconeClient.
Import PyStr PyDict PyFloat EmbeddingsGenerator.

(** Metadata values and filter expressions of the vector store. *)
Inductive value : Type :=
| VStr (s : str)
| VInt (n : Z).

#[warnings="-register-all"]
Inductive metadata_filter : Type :=
| FEq (field : str) (v : value)       (* {field: {"$eq": v}} *)
| FAnd (fs : list metadata_filter)             (* {"$and": fs} *)
| FOr (fs : list metadata_filter).             (* {"$or": fs} *)

Record vector_metadata : Type := {
  md_planet : str;
  md_house : Z;
  md_heading : str;
  md_content : str;
  md_char_count : nat
}.

(** A record handed to [index.upsert]. *)
Record vector : Type := {
  id : str;
  values : list float;
  metadata : vector_metadata
}.

(** An element of [query_result.matches]. *)
Record scored_vector : Type := {
  sv_id : str;
  sv_score : float;
  sv_metadata : dict value
}.

(** An element of the list returned by the two queries. *)
Record rule : Type := {
  rule_planet : value;
  rule_house : value;
  rule_id : str;
  rule_score : float;
  rule_content : value;
  rule_heading : value;
  rule_metadata : dict value
}.

(** What [print] wrote. *)
Inductive printed : Type :=
| Line (s : str)
| Dump (rs : list rule).

Record upload_stats : Type := {
  total_uploaded : nat;
  stats_index_name : str
}.

Section Service.

(** The vector store behind the client: a handle, its [query]
    (returning [.matches]) and its [upsert]. *)
Variable Index : Type.
Variable index_query :
  Index -> list float -> metadata_filter -> nat -> result (list scored_vector).
Variable index_upsert : Index -> list vector -> result Index.

Record client : Type := {
  index_name : str;
  index : option Index
}.

(** [range(0, n, step)] for [step >= 1] *)
Definition range_step (n step : nat) : list nat :=
  map (fun k => k * step)%nat (seq 0 ((n + step - 1) / step)).

(** The body of the loop that builds [vectors]; the f-string of
    [vector_id] renders the house, which raises beyond the digit
    limit. *)
Definition vector_of_chunk (c : embedded_chunk) : result vector :=
  let ch := chunk c in
  house_str <- str_of_int (LalKitabChunker.house ch) ;;
  let vector_id := lower (LalKitabChunker.planet ch) ++ lit "_house_" ++ house_str in
  Ok {| id := vector_id;
        values := embedding c;
        metadata := {| md_planet := LalKitabChunker.planet ch;
                       md_house := LalKitabChunker.house ch;
                       md_heading := LalKitabChunker.heading ch;
                       md_content := LalKitabChunker.content ch;
                       md_char_count := LalKitabChunker.char_count ch |} |}.

Fixpoint vectors_of_chunks (chunks : list embedded_chunk) : result (list vector) :=
  match chunks with
  | [] => Ok []
  | c :: chunks' =>
      vector <- vector_of_chunk c ;;
      vectors <- vectors_of_chunks chunks' ;;
      Ok (vector :: vectors)
  end.

(** The upload loop: one [index.upsert] per batch. *)
Fixpoint upload (idx : Index) (vectors : list vector) (batch_size : nat)
    (starts : list nat) (total_uploaded : nat) : result (Index * nat) :=
  match starts with
  | [] => Ok (idx, total_uploaded)
  | i :: starts' =>
      let batch := slice i (i + batch_size) vectors in
      idx' <- index_upsert idx batch ;;
      upload idx' vectors batch_size starts' (total_uploaded + length batch)
  end.

Definition upsert_chunks (self : client) (chunks : list embedded_chunk)
    (batch_size : nat) : result (Index * upload_stats) :=
  match index self with
  | None =>
      Raise (RuntimeError
        (lit "Not connected to any index. Call create_index() or connect_to_index() first."))
  | Some idx =>
      vectors <- vectors_of_chunks chunks ;;
      match batch_size with
      | O => Raise ValueError
      | _ =>
          r <- upload idx vectors batch_size
                 (range_step (length vectors) batch_size) 0 ;;
          Ok (fst r, {| total_uploaded := snd r;
                        stats_index_name := index_name self |})
      end
  end.

Definition pair_filter (planet : str) (house : Z) : metadata_filter :=
  FAnd [FEq (lit "planet") (VStr planet); FEq (lit "house") (VInt house)].

Definition zero_vector : list float := repeat (S754_zero false) 768.

Definition rule_of_match (planet : str) (house : Z) (m : scored_vector) : rule :=
  {| rule_planet := VStr planet;
     rule_house := VInt house;
     rule_id := sv_id m;
     rule_score := sv_score m;
     rule_content := get_default (sv_metadata m) (lit "content") (VStr []);
     rule_heading := get_default (sv_metadata m) (lit "heading") (VStr []);
     rule_metadata := sv_metadata m |}.

Definition warning (planet : str) (house : Z) (e : exn) : printed :=
  Line (lit "Warning: Could not retrieve " ++ planet ++ lit " in House "
        ++ of_int house ++ lit ": " ++ exn_str e).

(** The loop of [query_by_chart] over [chart.items()], threading
    [all_results] and the console output. *)
Fixpoint query_loop (idx : Index) (top_k : nat) (pairs : list (str * Z))
    (all_results : list rule) (out : list printed)
    : list rule * list printed :=
  match pairs with
  | [] => (all_results, out)
  | (planet, house) :: pairs' =>
      match index_query idx zero_vector (pair_filter planet house) top_k with
      | Ok matches =>
          query_loop idx top_k pairs'
            (all_results ++ map (rule_of_match planet house) matches) out
      | Raise e =>
          query_loop idx top_k pairs' all_results
            (out ++ [warning planet house e])
      end
  end.

(** [query_by_chart(chart, top_k)]: the value returned or the
    exception raised, together with what was printed. *)
Definition query_by_chart (self : client) (chart : dict Z) (top_k : nat)
    : result (list rule) * list printed :=
  match index self with
  | None => (Raise (RuntimeError (lit "Not connected to any index.")), [])
  | Some idx =>
      let '(all_results, out) := query_loop idx top_k (items chart) [] [] in
      (Ok all_results,
       out ++ [Line (lit "pinrcone_client.py: query_by_chart"); Dump all_results])
  end.

End Service.

End PineconeClient.

(* ================================================================= *)
(** * [app.py]: the birth-data gate *)

Module App.
Import PyStr PyDict PyFloat.

Record birth_data : Type := {
  date : str;
  time : str;
  place : str;
  timezone : float
}.

(** The dict returned by [extract_birth_data_with_llm], by its
    ['status']. *)
Inductive extraction : Type :=
| Complete (data : birth_data)
| Incomplete (missing_fields : list str)
| NonAstrology (message : str).

(** [st.session_state] *)
Record session_state : Type := {
  chart : option (dict Z);
  session_birth_data : option birth_data;
  awaiting_birth_data : bool;
  initial_summary_shown : bool
}.

(** The replies of [process_user_message]. *)
Inductive reply : Type :=
| ChartSummary (place : str) (summary : str)
| ChartFailed (e : exn)
| NeedMore (missing_fields : list str)
| Plain (message : str)
| Refusal
| Answer (text : str)
| AnswerFailed (e : exn).

Section Gate.

(** Collaborators: the language-model calls, the summary and answer
    generators, and the calculator behind [generate_chart]. *)
Variable extract_birth_data_with_llm : str -> extraction.
Variable validate_astrology_question : str -> bool.
Variable calculate_chart_by_place : str -> str -> str -> float -> result (dict Z).
Variable generate_initial_summary : dict Z -> result str.
Variable answer_question : str -> session_state -> result str.

Definition generate_chart (d : birth_data) : result (dict Z) :=
  calculate_chart_by_place (date d) (time d) (place d) (timezone d).

Definition set_birth_data (st : session_state) (b : option birth_data) :=
  {| chart := chart st; session_birth_data := b;
     awaiting_birth_data := awaiting_birth_data st;
     initial_summary_shown := initial_summary_shown st |}.

Definition set_chart (st : session_state) (c : dict Z) :=
  {| chart := Some c; session_birth_data := session_birth_data st;
     awaiting_birth_data := awaiting_birth_data st;
     initial_summary_shown := initial_summary_shown st |}.

Definition set_initial_summary_shown (st : session_state) (b : bool) :=
  {| chart := chart st; session_birth_data := session_birth_data st;
     awaiting_birth_data := awaiting_birth_data st;
     initial_summary_shown := b |}.

Definition process_user_message (message : str) (st : session_state)
    : reply * session_state :=
  match session_birth_data st with
  | None =>
      match extract_birth_data_with_llm message with
      | Complete data =>
          let st1 := set_birth_data st (Some data) in
          match generate_chart data with
          | Raise e => (ChartFailed e, set_birth_data st1 None)
          | Ok c =>
              let st2 := set_chart st1 c in
              match generate_initial_summary c with
              | Raise e => (ChartFailed e, set_birth_data st2 None)
              | Ok summary =>
                  (ChartSummary (place data) summary,
                   set_initial_summary_shown st2 true)
              end
          end
      | Incomplete missing => (NeedMore missing, st)
      | NonAstrology msg => (Plain msg, st)
      end
  | Some _ =>
      if negb (validate_astrology_question message) then (Refusal, st)
      else
        match answer_question message st with
        | Ok answer => (Answer answer, st)
        | Raise e => (AnswerFailed e, st)
        end
  end.

(** The two states of the gate, read off the test
    [if not st.session_state.birth_data]. *)
Inductive gate_state : Type := AWAITING_BIRTH_DATA | CHART_READY.

Definition gate (st : session_state) : gate_state :=
  match session_birth_data st with
  | None => AWAITING_BIRTH_DATA
  | Some _ => CHART_READY
  end.

End Gate.

Section Ingestion.

Variable embed_content : str -> result (list float).
Variable Index : Type.
Variable index_upsert : Index -> list PineconeClient.vector -> result Index.

(** The pipeline of [process_pdf] from the loaded text on, with the
    client already bound to its index by [create_index]:
<<
    chunks = chunker.extract_chunks(text)
    embedded_chunks = embedder.embed_chunks(chunks, show_progress=False)
    result = pinecone_client.upsert_chunks(embedded_chunks, show_progress=False)
>> *)
Definition ingest_text (pinecone_client : PineconeClient.client Index) (text : str)
    : result (Index * PineconeClient.upload_stats) :=
  chunks <- LalKitabChunker.extract_chunks text ;;
  embedded_chunks <- EmbeddingsGenerator.embed_chunks embed_content chunks ;;
  PineconeClient.upsert_chunks Index index_upsert pinecone_client embedded_chunks 100.

End Ingestion.

End App.

(* ================================================================= *)
(** * Vocabulary for the chart calculator *)

Module HoroscopeSpec.
Import PyStr PyDict PyFloat HoroscopeCalculator.

(** A longitude as the ephemeris returns it: a binary64 number in
    [0, 360). *)
Definition valid_longitude (x : float) : bool :=
  valid_binary prec emax x && leb (of_Z 0) x && ltb x (of_Z 360).

(** 100.00000000000001, the binary64 number after 100.0. *)
Definition next_after_100 : float := S754_finite false (100 * 2 ^ 46 + 1) (-46).

(** A stub ephemeris: the mean node at 200, every other body at 10, the
    ascendant at 50. *)
Definition stub_strptime (_ : str) : result datetime :=
  Ok {| year := 2004; month := 1; day := 16; hour := 10; minute := 30 |}.
Definition stub_julday (_ _ _ : Z) (_ : float) : float := of_Z 2453021.
Definition stub_asc (_ _ _ : float) : result float := Ok (of_Z 50).
Definition stub_calc_ut (_ : float) (planet_id : Z) : result float :=
  if planet_id =? MEAN_NODE then Ok (of_Z 200) else Ok (of_Z 10).

Definition stub_chart : dict Z :=
  [(lit "Sun", 11); (lit "Moon", 11); (lit "Mars", 11); (lit "Mercury", 11);
   (lit "Jupiter", 11); (lit "Venus", 11); (lit "Saturn", 11);
   (lit "Rahu", 6); (lit "Ketu", 12)].

End HoroscopeSpec.

(* ================================================================= *)
(** * Vocabulary for the chart model *)

Module HouseSpec.
Import PyStr PyDict LalKitabHouseSystem.

Definition in_1_12 (h : Z) : Prop := 1 <= h <= 12.

(** What [validate_loop] checks for the planets it is given: each is a
    key and its own house lies in [1, 12]. *)
Definition placed (chart : dict Z) (planets : list str) : Prop :=
  forall p, In p planets -> exists h, get chart p = Some h /\ in_1_12 h.

(** The reading of validity in which every entry of the chart, whatever
    its key, must carry a house in [1, 12]. *)
Definition all_houses_in_range (chart : dict Z) : Prop :=
  (forall p, In p required_planets -> contains chart p = true) /\
  (forall p h, In (p, h) (items chart) -> in_1_12 h).

(** A chart with the nine planets placed in range and one further key. *)
Definition chart_with_extra_key : dict Z :=
  [(lit "Sun", 1); (lit "Moon", 2); (lit "Mars", 3); (lit "Mercury", 4);
   (lit "Jupiter", 5); (lit "Venus", 6); (lit "Saturn", 7); (lit "Rahu", 8);
   (lit "Ketu", 9); (lit "Pluto", 13)].

(** A valid chart, for the instances below. *)
Definition sample_chart : dict Z :=
  [(lit "Sun", 10); (lit "Moon", 4); (lit "Mars", 7); (lit "Mercury", 10);
   (lit "Jupiter", 1); (lit "Venus", 12); (lit "Saturn", 4); (lit "Rahu", 6);
   (lit "Ketu", 12)].

(** [range(1, 13)] *)
Definition houses_1_12 : list Z := map Z.of_nat (seq 1 12).

End HouseSpec.

(* ================================================================= *)
(** * Vocabulary for the metadata-filtered query *)

Module QuerySpec.
Import PyStr PyDict PyFloat PineconeClient.

Section Service.

Variable Index : Type.
Variable index_query :
  Index -> list float -> metadata_filter -> nat -> result (list scored_vector).

(** The lookup issued for one (planet, house) pair. *)
Definition lookup_pair (idx : Index) (top_k : nat) (ph : str * Z)
    : result (list scored_vector) :=
  index_query idx zero_vector (pair_filter (fst ph) (snd ph)) top_k.

(** What one pair contributes to the answer: its matches, or nothing
    when its lookup raised. *)
Definition pair_rules (idx : Index) (top_k : nat) (ph : str * Z) : list rule :=
  match lookup_pair idx top_k ph with
  | Ok matches => map (rule_of_match (fst ph) (snd ph)) matches
  | Raise _ => []
  end.

Definition pair_warnings (idx : Index) (top_k : nat) (ph : str * Z) : list printed :=
  match lookup_pair idx top_k ph with
  | Ok _ => []
  | Raise e => [warning (fst ph) (snd ph) e]
  end.

End Service.

(** A stub store with one record per pair, whose lookup of the Moon
    fails. *)
Definition stub_query (_ : unit) (_ : list float) (f : metadata_filter) (_ : nat)
    : result (list scored_vector) :=
  match f with
  | FAnd [FEq _ (VStr planet); FEq _ (VInt house)] =>
      if PyStr.eqb planet (lit "Moon") then Raise (ServiceError (lit "timeout"))
      else Ok [{| sv_id := lower planet ++ lit "_house_" ++ of_int house;
                  sv_score := S754_zero false;
                  sv_metadata := [(lit "content", VStr (lit "text"))] |}]
  | _ => Ok []
  end.

Definition stub_client : client unit :=
  {| index_name := lit "lal-kitab-rules"; index := Some tt |}.

Definition stub_rule (planet : str) (house : Z) : rule :=
  {| rule_planet := VStr planet; rule_house := VInt house;
     rule_id := lower planet ++ lit "_house_" ++ of_int house;
     rule_score := S754_zero false;
     rule_content := VStr (lit "text"); rule_heading := VStr [];
     rule_metadata := [(lit "content", VStr (lit "text"))] |}.

End QuerySpec.

(* ================================================================= *)
(** * Vocabulary for the birth-data gate *)

Module GateSpec.
Import PyStr PyDict PyFloat App.

Section Gate.

Variable extract_birth_data_with_llm : str -> extraction.
Variable validate_astrology_question : str -> bool.
Variable generate_initial_summary : dict Z -> result str.
Variable answer_question : str -> session_state -> result str.

Variable strptime : str -> result HoroscopeCalculator.datetime.
Variable swe_julday : Z -> Z -> Z -> float -> float.
Variable swe_houses_asc : float -> float -> float -> result float.
Variable swe_calc_ut : float -> Z -> result float.
Variable get_coordinates : str -> result (option (float * float)).

(** The gate wired to the calculator of [horoscope.py]. *)
Definition calculator : str -> str -> str -> float -> result (dict Z) :=
  HoroscopeCalculator.calculate_chart_by_place
    strptime swe_julday swe_houses_asc swe_calc_ut get_coordinates.

Definition step : str -> session_state -> reply * session_state :=
  process_user_message extract_birth_data_with_llm validate_astrology_question
    calculator generate_initial_summary answer_question.

End Gate.

(** Stub collaborators: every message carries complete birth data for a
    place the geocoder does not know. *)
Definition stub_data : birth_data :=
  {| date := lit "2004-01-16"; time := lit "10:30"; place := lit "Atlantis";
     timezone := S754_finite false 6192449487634432 (-50) |}.

Definition stub_extract (_ : str) : extraction := Complete stub_data.
Definition stub_geocoder (_ : str) : result (option (float * float)) := Ok None.

Definition fresh_session : session_state :=
  {| chart := None; session_birth_data := None;
     awaiting_birth_data := false; initial_summary_shown := false |}.

Definition stub_step : str -> session_state -> reply * session_state :=
  step stub_extract (fun _ => true) (fun _ => Ok []) (fun _ _ => Ok [])
    HoroscopeSpec.stub_strptime HoroscopeSpec.stub_julday
    HoroscopeSpec.stub_asc HoroscopeSpec.stub_calc_ut stub_geocoder.

End GateSpec.

(* ================================================================= *)
(** * The meaning of regular expressions *)

Module ReSpec.
Import PyStr Re.

(** The character before the position reached after reading [w]. *)
Definition last_char (pv : option ascii) (w : str) : option ascii :=
  fold_left (fun _ x => Some x) w pv.

(** [sem r pv w g g']: the word [w], read just after the character
    [pv], is matched by [r], turning the captured groups [g] into
    [g']. *)
Inductive sem : regex -> option ascii -> str ->
                list (nat * str) -> list (nat * str) -> Prop :=
| sem_eps pv g : sem Eps pv [] g g
| sem_bol pv g : at_bol pv = true -> sem Bol pv [] g g
| sem_chr a x pv g : chr_eqb a x = true -> sem (Chr a) pv [x] g g
| sem_cls p x pv g : p x = true -> sem (Cls p) pv [x] g g
| sem_seq r1 r2 pv w1 w2 g g1 g2 :
    sem r1 pv w1 g g1 -> sem r2 (last_char pv w1) w2 g1 g2 ->
    sem (Seq r1 r2) pv (w1 ++ w2) g g2
| sem_alt_l r1 r2 pv w g g' : sem r1 pv w g g' -> sem (Alt r1 r2) pv w g g'
| sem_alt_r r1 r2 pv w g g' : sem r2 pv w g g' -> sem (Alt r1 r2) pv w g g'
| sem_plus p x w pv g :
    p x = true -> forallb p w = true -> sem (Plus p) pv (x :: w) g g
| sem_opt_some r pv w g g' : sem r pv w g g' -> sem (Opt r) pv w g g'
| sem_opt_none r pv g : sem (Opt r) pv [] g g
| sem_group n r pv w g g' :
    sem r pv w g g' -> sem (Group n r) pv w g ((n, w) :: g').

(** A cursor [c'] is reached from [c] by reading [w] with [r]. *)
Definition reaches (r : regex) (c : cursor) (w : str) (c' : cursor) : Prop :=
  rest c = w ++ rest c' /\
  pos c' = (pos c + length w)%nat /\
  prev c' = last_char (prev c) w /\
  sem r (prev c) w (caps c) (caps c').

(** The cursor [c] moved over the word [w], with [s] left ahead. *)
Definition moved (c : cursor) (w s : str) : cursor :=
  {| pos := pos c + length w; prev := last_char (prev c) w;
     rest := s; caps := caps c |}.

End ReSpec.

(* ================================================================= *)
(** * Vocabulary for the heading matcher *)

Module ParserSpec.
Import PyStr Re ReSpec RegexParser.

(** [w] spells [s] up to the case of its letters. *)
Definition spells (s w : str) : Prop :=
  Forall2 (fun a x => chr_eqb a x = true) s w.

(** The text of group 2: a run of digits, or the letter I. *)
Definition ordinal (g2 : str) : Prop :=
  (g2 <> [] /\ forallb isdigit g2 = true) \/ spells (lit "I") g2.

(** What the heading pattern matches: a planet name, blanks, "in",
    blanks, the ordinal with an optional suffix, blanks and "house". *)
Record heading_shape (pv : option ascii) (w : str) (g : list (nat * str)) : Prop := {
  hs_bol : at_bol pv = true;
  hs_parts :
    exists name g1 ws1 kw ws2 g2 suf ws3 hse,
      w = g1 ++ ws1 ++ kw ++ ws2 ++ g2 ++ suf ++ ws3 ++ hse /\
      g = [(2%nat, g2); (1%nat, g1)] /\
      In name PLANETS /\ spells name g1 /\
      (ws1 <> [] /\ forallb isspace ws1 = true) /\
      spells (lit "in") kw /\
      (ws2 <> [] /\ forallb isspace ws2 = true) /\
      ordinal g2 /\
      (suf = [] \/ exists s, In s [lit "st"; lit "nd"; lit "rd"; lit "th"] /\ spells s suf) /\
      (ws3 <> [] /\ forallb isspace ws3 = true) /\
      spells (lit "house") hse
}.

(** The character of [text] just before offset [p], if any. *)
Definition char_before (text : str) (p : nat) : option ascii :=
  last_char None (firstn p text).

(** [m] is a match of [r] sitting in [text] at its recorded offsets. *)
Definition located (r : regex) (text : str) (m : match_object) : Prop :=
  m_end m = (m_start m + length (m_group0 m))%nat /\
  skipn (m_start m) text = m_group0 m ++ skipn (m_end m) text /\
  (m_end m <= length text)%nat /\
  sem r (char_before text (m_start m)) (m_group0 m) [] (m_groups m).

(** The matches lie in [text] from offset [lo] on, in increasing order
    and without overlap. *)
Fixpoint chain (r : regex) (text : str) (lo : nat) (ms : list match_object) : Prop :=
  match ms with
  | [] => True
  | m :: ms' =>
      (lo <= m_start m)%nat /\ located r text m /\ chain r text (m_end m) ms'
  end.

(** A heading occurrence sitting in [text]: it starts a line, its
    offsets delimit its text, which is not empty and has no blank at
    either end. *)
Record heading_ok (text : str) (h : heading) : Prop := {
  ok_bol : at_bol (char_before text (start_pos h)) = true;
  ok_end : end_pos h = (start_pos h + length (match_text h))%nat;
  ok_text : skipn (start_pos h) text = match_text h ++ skipn (end_pos h) text;
  ok_bound : (end_pos h <= length text)%nat;
  ok_first : exists x w', match_text h = x :: w' /\ isspace x = false;
  ok_last : exists front y, match_text h = front ++ [y] /\ isspace y = false;
  ok_planet : In (planet h) PLANETS
}.

(** The occurrences are in increasing order and do not overlap. *)
Fixpoint ascending (text : str) (lo : nat) (hs : list heading) : Prop :=
  match hs with
  | [] => True
  | h :: hs' =>
      (lo <= start_pos h)%nat /\ heading_ok text h /\ ascending text (end_pos h) hs'
  end.

End ParserSpec.

(* ================================================================= *)
(** * Vocabulary for the chunk extractor *)

Module ChunkerSpec.
Import PyStr Re ReSpec RegexParser ParserSpec.
Import LalKitabChunker.

(** The span owned by each occurrence: from its start to the start of
    the next occurrence, or to the end of the document for the last. *)
Fixpoint spans (text : str) (hs : list RegexParser.heading) : list (nat * nat) :=
  match hs with
  | [] => []
  | h :: hs' =>
      (start_pos h,
       match hs' with
       | [] => length text
       | h' :: _ => start_pos h'
       end) :: spans text hs'
  end.

(** The chunk of an occurrence [h] that owns the span [ab]. *)
Definition chunk_of_span (text : str) (h : RegexParser.heading) (ab : nat * nat) : chunk :=
  let chunk_text := strip (slice (fst ab) (snd ab) text) in
  {| planet := RegexParser.planet h;
     house := RegexParser.house h;
     heading := match_text h;
     content := chunk_text;
     char_count := length chunk_text |}.

Definition chunks_of (text : str) (hs : list RegexParser.heading) : list chunk :=
  map (fun hab => chunk_of_span text (fst hab) (snd hab)) (combine hs (spans text hs)).

(** [tiles lo hi sp]: the spans [sp] are non-empty, each starts where
    the previous one ends, the first at [lo] and the last ending at
    [hi]. *)
Fixpoint tiles (lo hi : nat) (sp : list (nat * nat)) : Prop :=
  match sp with
  | [] => lo = hi
  | (a, b) :: sp' => a = lo /\ (a < b)%nat /\ tiles b hi sp'
  end.

Definition heading_leads (c : chunk) : Prop :=
  (exists t, content c = heading c ++ t) /\
  (length (heading c) <= length (content c))%nat /\
  char_count c = length (content c).

(** The chunk [c] was cut for the occurrence [h]: it carries the
    occurrence's planet, house and matched text, and its trimmed content
    starts with that text. *)
Definition chunk_for (h : RegexParser.heading) (c : chunk) : Prop :=
  planet c = RegexParser.planet h /\
  house c = RegexParser.house h /\
  heading c = match_text h /\
  heading_leads c.

(** The sample text of the self-test at the end of [chunker.py], and
    its three heading occurrences. *)
Definition chunker_sample_text : str :=
  let nl := ["010"%char] in
  nl ++ lit "Sun in 1st House" ++
  nl ++ lit "Benefic: The native will be good and wealthy." ++
  nl ++ lit "Malefic: Health problems may occur." ++
  nl ++
  nl ++ lit "Sun in 2nd house" ++
  nl ++ lit "Benefic: Good family life." ++
  nl ++ lit "Malefic: Disputes in family." ++
  nl ++
  nl ++ lit "Moon in 3rd House" ++
  nl ++ lit "Benefic: Intelligent and wise." ++
  nl ++ lit "Malefic: Mental stress possible." ++
  nl.

Definition chunker_sample_headings : list RegexParser.heading :=
  [{| RegexParser.planet := lit "Sun"; RegexParser.house := 1;
      start_pos := 1; end_pos := 17; match_text := lit "Sun in 1st House" |};
   {| RegexParser.planet := lit "Sun"; RegexParser.house := 2;
      start_pos := 101; end_pos := 117; match_text := lit "Sun in 2nd house" |};
   {| RegexParser.planet := lit "Moon"; RegexParser.house := 3;
      start_pos := 175; end_pos := 192; match_text := lit "Moon in 3rd House" |}].

End ChunkerSpec.

(* ================================================================= *)
(** * Vocabulary for the ingestion path *)

Module IngestionSpec.
Import PyStr PyDict Re ReSpec RegexParser ParserSpec.

Definition digits_value (s : str) (acc : Z) : Z :=
  fold_left (fun acc c => 10 * acc + digit_value c) s acc.

(** The document made of the single line [<P> in <n>th House]. *)
Definition heading_line (P : str) (n : Z) : str :=
  P ++ lit " in " ++ of_int n ++ lit "th House".

Definition line_heading (P : str) (n : Z) : heading :=
  {| planet := P; house := n; start_pos := 0;
     end_pos := length (heading_line P n); match_text := heading_line P n |}.

Definition line_chunk (P : str) (n : Z) : LalKitabChunker.chunk :=
  {| LalKitabChunker.planet := P;
     LalKitabChunker.house := n;
     LalKitabChunker.heading := heading_line P n;
     LalKitabChunker.content := heading_line P n;
     LalKitabChunker.char_count := length (heading_line P n) |}.

Definition line_vector (P : str) (n : Z) (embedding : list PyFloat.float)
    : PineconeClient.vector :=
  {| PineconeClient.id := lower P ++ lit "_house_" ++ of_int n;
     PineconeClient.values := embedding;
     PineconeClient.metadata :=
       {| PineconeClient.md_planet := P;
          PineconeClient.md_house := n;
          PineconeClient.md_heading := heading_line P n;
          PineconeClient.md_content := heading_line P n;
          PineconeClient.md_char_count := length (heading_line P n) |} |}.

(** A store kept as the list of the vectors it received, and an
    embedder that answers with an empty vector. *)
Definition stub_upsert (idx : list PineconeClient.vector)
    (batch : list PineconeClient.vector) : result (list PineconeClient.vector) :=
  Ok (idx ++ batch).

Definition stub_embed (_ : str) : result (list PyFloat.float) := Ok [].

Definition empty_store : PineconeClient.client (list PineconeClient.vector) :=
  {| PineconeClient.index_name := lit "lal-kitab-rules";
     PineconeClient.index := Some [] |}.

Definition tab : str := [ascii_of_nat 9].
Definition nl : str := [ascii_of_nat 10].

(** The sample text of the self-test at the end of [regex_parser.py]. *)
Definition sample_text : str :=
  nl ++ lit "    Sun in 1st House" ++
  nl ++ lit "    This is some content about Sun in first house." ++
  nl ++ lit "    " ++
  nl ++ lit "    Sun in 2nd house" ++
  nl ++ lit "    This is content about Sun in second house." ++
  nl ++ lit "    " ++
  nl ++ lit "    Moon in 3rd House" ++
  nl ++ lit "    Content about Moon." ++
  nl ++ lit "    ".

End IngestionSpec.

(* ================================================================= *)
(** * Vocabulary for binary64 arithmetic *)

Module FloatSpec.
Import PyFloat.

(** [x] is zero or finite with magnitude below [2 ^ B]. *)
Definition below (B : Z) (x : float) : Prop :=
  match x with
  | S754_zero _ => True
  | S754_finite _ m e => Zpos (digits2_pos m) + e <= B
  | _ => False
  end.

End FloatSpec.

(* ================================================================= *)
(** * Properties of binary64 arithmetic *)

Module FloatFacts.
Import PyFloat FloatSpec.

(** ** Binary digits *)

Lemma digits2_size p : digits2_pos p = Pos.size p.
Proof. induction p; simpl; congruence. Qed.

Lemma Zdigits2_log2 p : Zdigits2 (Zpos p) = Z.log2 (Zpos p) + 1.
Proof.
  unfold Zdigits2. rewrite digits2_size.
  destruct p; simpl; rewrite ?Pos.add_1_r; reflexivity.
Qed.

Lemma Zdigits2_nonneg m : 0 <= Zdigits2 m.
Proof. destruct m; simpl; lia. Qed.

(** A non-negative number below [2 ^ k] has at most [k] digits. *)
Lemma Zdigits2_le m k : 0 <= m -> 0 <= k -> m < 2 ^ k -> Zdigits2 m <= k.
Proof.
  intros Hm Hk Hlt. destruct m as [|p|p]; [simpl; lia| |lia].
  rewrite Zdigits2_log2. apply Z.log2_lt_pow2 in Hlt; lia.
Qed.

Lemma Zdigits2_gt m : 0 <= m -> m < 2 ^ Zdigits2 m.
Proof.
  intros Hm. destruct m as [|p|p]; [simpl; lia| |lia].
  rewrite Zdigits2_log2. apply Z.log2_spec. lia.
Qed.

Lemma Zdigits2_lower p : 2 ^ (Zdigits2 (Zpos p) - 1) <= Zpos p.
Proof.
  rewrite Zdigits2_log2. replace (Z.log2 (Zpos p) + 1 - 1) with (Z.log2 (Zpos p)) by lia.
  apply Z.log2_spec. lia.
Qed.

Lemma Zdigits2_mono m n : 0 <= m -> m <= n -> Zdigits2 m <= Zdigits2 n.
Proof.
  intros Hm Hmn. apply Zdigits2_le; [lia|apply Zdigits2_nonneg|].
  pose proof (Zdigits2_gt n). lia.
Qed.

Lemma Zdigits2_succ m : 0 <= m -> Zdigits2 (m + 1) <= Zdigits2 m + 1.
Proof.
  intros Hm. apply Zdigits2_le; [lia|pose proof (Zdigits2_nonneg m); lia|].
  pose proof (Zdigits2_gt m Hm). pose proof (Zdigits2_nonneg m).
  rewrite Z.pow_add_r by lia. lia.
Qed.

(** ** Shifting right *)

Lemma shr_1_m mrs : 0 <= shr_m mrs -> shr_m (shr_1 mrs) = Z.div2 (shr_m mrs).
Proof.
  destruct mrs as [m r s]. simpl. intros Hm.
  destruct m as [|[p|p|]|p]; try reflexivity; lia.
Qed.

Lemma iter_shr_1 : forall p mrs,
  0 <= shr_m mrs ->
  0 <= shr_m (SpecFloat.iter_pos shr_1 p mrs) /\
  shr_m (SpecFloat.iter_pos shr_1 p mrs) * 2 ^ Zpos p <= shr_m mrs.
Proof.
  assert (Hone : forall mrs, 0 <= shr_m mrs ->
            0 <= shr_m (shr_1 mrs) /\ shr_m (shr_1 mrs) * 2 <= shr_m mrs).
  { intros mrs Hm. rewrite (shr_1_m mrs Hm), Z.div2_div.
    pose proof (Z.mul_div_le (shr_m mrs) 2). 
    pose proof (Z.div_pos (shr_m mrs) 2). lia. }
  assert (HxO : forall p, 2 ^ Zpos p~0 = 2 ^ Zpos p * 2 ^ Zpos p).
  { intros p. rewrite <- Z.pow_add_r by lia. f_equal. lia. }
  assert (HxI : forall p, 2 ^ Zpos p~1 = 2 * (2 ^ Zpos p * 2 ^ Zpos p)).
  { intros p. rewrite <- Z.pow_add_r by lia. rewrite <- Z.pow_succ_r by lia.
    f_equal. lia. }
  induction p as [p IH|p IH|]; intros mrs Hm; simpl SpecFloat.iter_pos.
  - destruct (Hone mrs Hm) as [H0 H1].
    destruct (IH _ H0) as [H2 H3]. destruct (IH _ H2) as [H4 H5].
    split; [exact H4|]. rewrite HxI.
    pose proof (Z.pow_pos_nonneg 2 (Zpos p)). nia.
  - destruct (IH _ Hm) as [H2 H3]. destruct (IH _ H2) as [H4 H5].
    split; [exact H4|]. rewrite HxO.
    pose proof (Z.pow_pos_nonneg 2 (Zpos p)). nia.
  - change (2 ^ 1) with 2. now apply Hone.
Qed.

(** The exponent bound [max U emin] that shifting to the format's
    exponent preserves, for [U] the position of the leading digit. *)
Lemma shr_fexp_below m e l :
  0 <= m ->
  let U := Zdigits2 m + e in
  let r := shr_fexp prec emax m e l in
  0 <= shr_m (fst r) /\
  snd r <= Z.max U (emin prec emax) /\
  Zdigits2 (shr_m (fst r)) + snd r <= Z.max U (emin prec emax).
Proof.
  intros Hm U r. subst r. unfold shr_fexp, shr.
  fold U.
  assert (Hrec : shr_m (shr_record_of_loc m l) = m).
  { destruct l as [|[| |]]; reflexivity. }
  pose proof (Zdigits2_nonneg m) as Hd.
  assert (Hf : fexp prec emax U <= Z.max U (emin prec emax)).
  { unfold fexp. unfold prec. lia. }
  destruct (fexp prec emax U - e) as [|n|n] eqn:En; cbn [fst snd].
  - rewrite Hrec. split; [exact Hm|]. fold U. lia.
  - destruct (iter_shr_1 n (shr_record_of_loc m l)) as [H0 H1];
      [rewrite Hrec; exact Hm|].
    rewrite Hrec in H1.
    split; [exact H0|]. split; [lia|].
    set (m1 := shr_m (SpecFloat.iter_pos shr_1 n (shr_record_of_loc m l))) in *.
    destruct m1 as [|p1|p1] eqn:Em1; [simpl; lia| |lia].
    (* 2^(d1-1) <= m1, m1 * 2^n <= m < 2^(digits m) *)
    pose proof (Zdigits2_lower p1) as Hlow.
    pose proof (Zdigits2_gt m Hm) as Hup.
    pose proof (Zdigits2_nonneg (Zpos p1)) as Hd1.
    assert (Hd1' : 1 <= Zdigits2 (Zpos p1)) by (simpl; lia).
    assert (Hpow : 2 ^ (Zdigits2 (Zpos p1) - 1 + Zpos n) < 2 ^ Zdigits2 m).
    { rewrite Z.pow_add_r by lia.
      pose proof (Z.pow_pos_nonneg 2 (Zpos n)). nia. }
    apply Z.pow_lt_mono_r_iff in Hpow; lia.
  - rewrite Hrec. split; [exact Hm|]. fold U. lia.
Qed.

(** ** Rounding *)

Lemma round_nearest_even_bounds m l :
  0 <= m -> m <= round_nearest_even m l <= m + 1.
Proof.
  intros Hm. unfold round_nearest_even.
  destruct l as [|[| |]]; try lia. destruct (Z.even m); lia.
Qed.

(** Rounding a non-negative mantissa whose leading digit sits below
    position [B] gives zero or a finite number below [2 ^ (B + 1)]. *)
Lemma round_aux_below sx mx ex lx B :
  0 <= mx -> Zdigits2 mx + ex <= B ->
  emin prec emax <= B -> B + 1 <= emax - prec ->
  below (B + 1) (binary_round_aux prec emax sx mx ex lx).
Proof.
  intros Hm HU Hmin Hmax. unfold binary_round_aux.
  pose proof (shr_fexp_below mx ex lx Hm) as H1. cbv zeta in H1.
  destruct (shr_fexp prec emax mx ex lx) as [mrs1 e1]. cbn [fst snd] in H1.
  destruct H1 as (H1m & H1e & H1d).
  pose proof (round_nearest_even_bounds (shr_m mrs1) (loc_of_shr_record mrs1) H1m)
    as Hr.
  set (m1 := round_nearest_even (shr_m mrs1) (loc_of_shr_record mrs1)) in *.
  assert (Hm1 : 0 <= m1) by lia.
  assert (Hd1 : Zdigits2 m1 + e1 <= B + 1).
  { pose proof (Zdigits2_mono m1 (shr_m mrs1 + 1) Hm1 (proj2 Hr)).
    pose proof (Zdigits2_succ (shr_m mrs1) H1m). lia. }
  pose proof (shr_fexp_below m1 e1 loc_Exact Hm1) as H2. cbv zeta in H2.
  destruct (shr_fexp prec emax m1 e1 loc_Exact) as [mrs2 e2]. cbn [fst snd] in H2.
  destruct H2 as (H2m & H2e & H2d).
  destruct (shr_m mrs2) as [|m2|m2]; [exact I| |lia].
  replace (e2 <=? emax - prec) with true by (symmetry; apply Z.leb_le; lia).
  simpl. simpl in H2d. lia.
Qed.

Lemma digits2_iter_xO m d :
  Zpos (digits2_pos (Pos.iter xO m d)) = Zpos (digits2_pos m) + Zpos d.
Proof.
  induction d as [|d IH] using Pos.peano_ind.
  - simpl. lia.
  - rewrite Pos.iter_succ. simpl digits2_pos. lia.
Qed.

(** Aligning a mantissa to a smaller exponent keeps the position of
    its leading digit. *)
Lemma shl_align_digits mx ex ex' :
  Zpos (digits2_pos (fst (shl_align mx ex ex'))) + snd (shl_align mx ex ex')
  = Zpos (digits2_pos mx) + ex.
Proof.
  unfold shl_align. destruct (ex' - ex) as [|d|d] eqn:E; cbn [fst snd]; try reflexivity.
  rewrite digits2_iter_xO. lia.
Qed.

Lemma shl_align_exp mx ex ex' :
  ex' <= ex -> snd (shl_align mx ex ex') = ex'.
Proof.
  intros H. unfold shl_align. destruct (ex' - ex) as [|d|d] eqn:E; cbn [snd]; lia.
Qed.

Lemma round_below sx mx ex B :
  Zpos (digits2_pos mx) + ex <= B ->
  emin prec emax <= B -> B + 1 <= emax - prec ->
  below (B + 1) (binary_round prec emax sx mx ex).
Proof.
  intros HU Hmin Hmax. unfold binary_round.
  pose proof (shl_align_digits mx ex (fexp prec emax (Zpos (digits2_pos mx) + ex)))
    as Hd.
  destruct (shl_align mx ex (fexp prec emax (Zpos (digits2_pos mx) + ex)))
    as [mz ez]. cbn [fst snd] in Hd.
  apply round_aux_below; [lia | unfold Zdigits2; lia | assumption | assumption].
Qed.

Lemma normalize_below m e szero B :
  Zdigits2 m + e <= B ->
  emin prec emax <= B -> B + 1 <= emax - prec ->
  below (B + 1) (binary_normalize prec emax m e szero).
Proof.
  intros HU Hmin Hmax. unfold binary_normalize.
  destruct m as [|p|p]; [exact I| |]; apply round_below; assumption.
Qed.

Lemma below_weaken B B' x : B <= B' -> below B x -> below B' x.
Proof. intros H Hx. destruct x; simpl in *; auto. lia. Qed.

(** ** Subtraction and addition *)

Lemma Zdigits2_abs_le z k : 0 <= k -> Z.abs z < 2 ^ k -> Zdigits2 z <= k.
Proof.
  intros Hk Hz.
  assert (E : Zdigits2 z = Zdigits2 (Z.abs z)) by (destruct z; reflexivity).
  rewrite E. apply Zdigits2_le; lia.
Qed.

(** The aligned mantissa of a number below [2 ^ B]. *)
Lemma aligned_lt mx ex ez B :
  Zpos (digits2_pos mx) + ex <= B -> ez <= ex ->
  0 <= B - ez /\ Zpos (fst (shl_align mx ex ez)) < 2 ^ (B - ez).
Proof.
  intros HB Hez.
  pose proof (shl_align_digits mx ex ez) as Hd.
  rewrite (shl_align_exp mx ex ez Hez) in Hd.
  pose proof (Zdigits2_gt (Zpos (fst (shl_align mx ex ez)))) as Hgt.
  unfold Zdigits2 in Hgt.
  split; [lia|].
  eapply Z.lt_le_trans; [apply Hgt; lia|].
  apply Z.pow_le_mono_r; lia.
Qed.

Lemma signed_sum_below (sx sy : bool) (X Y : Z) k :
  0 <= k -> 0 <= X < 2 ^ k -> 0 <= Y < 2 ^ k ->
  Z.abs (cond_Zopp sx X + cond_Zopp sy Y) < 2 ^ (k + 1) /\
  Z.abs (cond_Zopp sx X - cond_Zopp sy Y) < 2 ^ (k + 1).
Proof.
  intros Hk HX HY. rewrite Z.pow_add_r by lia. change (2 ^ 1) with 2.
  destruct sx, sy; simpl; lia.
Qed.

Lemma sub_below B x y :
  below B x -> below B y ->
  emin prec emax <= B -> B + 2 <= emax - prec ->
  below (B + 2) (sub x y).
Proof.
  intros Hx Hy Hmin Hmax. unfold sub.
  destruct x as [sx| | |sx mx ex], y as [sy| | |sy my ey];
    try contradiction; simpl in Hx, Hy.
  - simpl. destruct sx, sy; exact I.
  - simpl. lia.
  - simpl. lia.
  - unfold SFsub.
    destruct (aligned_lt mx ex (Z.min ex ey) B Hx (Z.le_min_l _ _)) as [Hk HX].
    destruct (aligned_lt my ey (Z.min ex ey) B Hy (Z.le_min_r _ _)) as [_ HY].
    replace (B + 2) with (B + 1 + 1) by lia.
    apply normalize_below; [|lia|lia].
    pose proof (signed_sum_below sx sy _ _ _ Hk
                  (conj (Pos2Z.is_nonneg _) HX) (conj (Pos2Z.is_nonneg _) HY))
      as [_ Hs].
    pose proof (Zdigits2_abs_le _ (B - Z.min ex ey + 1) ltac:(lia) Hs). lia.
Qed.

Lemma add_below B x y :
  below B x -> below B y ->
  emin prec emax <= B -> B + 2 <= emax - prec ->
  below (B + 2) (add x y).
Proof.
  intros Hx Hy Hmin Hmax. unfold add.
  destruct x as [sx| | |sx mx ex], y as [sy| | |sy my ey];
    try contradiction; simpl in Hx, Hy.
  - simpl. destruct sx, sy; exact I.
  - simpl. lia.
  - simpl. lia.
  - unfold SFadd.
    destruct (aligned_lt mx ex (Z.min ex ey) B Hx (Z.le_min_l _ _)) as [Hk HX].
    destruct (aligned_lt my ey (Z.min ex ey) B Hy (Z.le_min_r _ _)) as [_ HY].
    replace (B + 2) with (B + 1 + 1) by lia.
    apply normalize_below; [|lia|lia].
    pose proof (signed_sum_below sx sy _ _ _ Hk
                  (conj (Pos2Z.is_nonneg _) HX) (conj (Pos2Z.is_nonneg _) HY))
      as [Hs _].
    pose proof (Zdigits2_abs_le _ (B - Z.min ex ey + 1) ltac:(lia) Hs). lia.
Qed.

(** ** Remainder, division, truncation *)

Lemma of_Z_360 : of_Z 360 = S754_finite false 6333186975989760 (-44).
Proof. reflexivity. Qed.

Lemma of_Z_30 : of_Z 30 = S754_finite false 8444249301319680 (-48).
Proof. reflexivity. Qed.

Lemma of_Z_180 : of_Z 180 = S754_finite false 6333186975989760 (-45).
Proof. reflexivity. Qed.

Lemma fmod_360_below x :
  below (emax - prec - 2) x -> below 10 (fmod x (of_Z 360)).
Proof.
  intros Hx. rewrite of_Z_360. unfold fmod.
  destruct x as [sx| | |sx mx ex]; try contradiction; [exact I|].
  set (ez := Z.min ex (-44)).
  set (X := Zpos (fst (shl_align mx ex ez))).
  set (Y := Zpos (fst (shl_align 6333186975989760 (-44) ez))).
  change 10 with (9 + 1). apply normalize_below; [|unfold emin, prec, emax; lia..].
  destruct (aligned_lt 6333186975989760 (-44) ez 9) as [Hk HY];
    [simpl; lia|apply Z.le_min_r|]. fold Y in HY.
  assert (HR : Z.abs (cond_Zopp sx (Z.rem X Y)) < 2 ^ (9 - ez)).
  { pose proof (Z.rem_bound_pos X Y ltac:(unfold X; lia) ltac:(unfold Y; lia)).
    destruct sx; unfold cond_Zopp; lia. }
  pose proof (Zdigits2_abs_le _ _ Hk HR). lia.
Qed.

Lemma rem_360_below x :
  below (emax - prec - 2) x ->
  exists d, rem x (of_Z 360) = Ok d /\ below 12 d.
Proof.
  intros Hx. pose proof (fmod_360_below x Hx) as Hm.
  unfold rem. change (is_zero (of_Z 360)) with false. cbv iota.
  destruct (is_zero (fmod x (of_Z 360))); [eexists; split; [reflexivity|exact I]|].
  destruct (negb _).
  - eexists. split; [reflexivity|].
    change 12 with (10 + 2). apply add_below; [exact Hm| |unfold emin, prec, emax; lia..].
    rewrite of_Z_360. simpl. lia.
  - eexists. split; [reflexivity|]. apply (below_weaken 10); [lia|exact Hm].
Qed.

Lemma div_core_below m1 e1 m2 e2 :
  let r := SFdiv_core_binary prec emax (Zpos m1) e1 (Zpos m2) e2 in
  0 <= fst (fst r) /\
  Zdigits2 (fst (fst r)) + snd (fst r) <= Zpos (digits2_pos m1) + e1 - e2.
Proof.
  unfold SFdiv_core_binary.
  set (e' := Z.min _ (e1 - e2)).
  assert (He' : e' <= e1 - e2) by apply Z.le_min_r.
  set (s := e1 - e2 - e').
  assert (Hs : 0 <= s) by (unfold s; lia).
  set (m' := match s with Zpos _ => Z.shiftl (Zpos m1) s | Z0 => Zpos m1
                        | Zneg _ => 0 end).
  assert (Hm' : m' = Zpos m1 * 2 ^ s).
  { unfold m'. destruct s as [|p|p]; [simpl; lia| |lia].
    now rewrite Z.shiftl_mul_pow2 by lia. }
  pose proof (Z.pow_pos_nonneg 2 s ltac:(lia) Hs) as Hpow.
  assert (Hdiv : Z.div_eucl m' (Zpos m2) = (m' / Zpos m2, m' mod Zpos m2)).
  { unfold Z.div, Z.modulo. now destruct (Z.div_eucl m' (Zpos m2)). }
  rewrite Hdiv. cbn [fst snd].
  assert (Hq0 : 0 <= m' / Zpos m2) by (apply Z.div_pos; nia).
  assert (Hq1 : m' / Zpos m2 <= m').
  { apply Z.div_le_upper_bound; nia. }
  split; [exact Hq0|].
  assert (Hd : Zdigits2 (m' / Zpos m2) <= Zpos (digits2_pos m1) + s).
  { apply Zdigits2_le; [exact Hq0|lia|].
    pose proof (Zdigits2_gt (Zpos m1) ltac:(lia)) as Hgt. unfold Zdigits2 in Hgt.
    rewrite Z.pow_add_r by lia. nia. }
  unfold s in Hd. lia.
Qed.

Lemma div_30_below B x :
  below B x -> emin prec emax <= B + 48 -> B + 49 <= emax - prec ->
  below (B + 49) (div x (of_Z 30)).
Proof.
  intros Hx Hmin Hmax. rewrite of_Z_30. unfold div.
  destruct x as [sx| | |sx mx ex]; try contradiction; [exact I|].
  unfold SFdiv.
  pose proof (div_core_below mx ex 8444249301319680 (-48)) as Hc. cbv zeta in Hc.
  destruct (SFdiv_core_binary prec emax (Zpos mx) ex (Zpos 8444249301319680) (-48))
    as [[mz ez] lz]. cbn [fst snd] in Hc. destruct Hc as [Hc0 Hc1].
  replace (B + 49) with (B + 48 + 1) by lia.
  unfold below in Hx. apply round_aux_below; [exact Hc0|lia|lia|lia].
Qed.

Lemma to_int_below B x : below B x -> exists n, to_int x = Ok n.
Proof. destruct x; simpl; try contradiction; eauto. Qed.

(** A valid longitude is zero or a positive number below [2 ^ 9]. *)
Lemma valid_longitude_below x :
  HoroscopeSpec.valid_longitude x = true -> below 9 x.
Proof.
  unfold HoroscopeSpec.valid_longitude. rewrite of_Z_360.
  intros H. apply andb_true_iff in H. destruct H as [H Hlt].
  apply andb_true_iff in H. destruct H as [Hv Hle].
  destruct x as [s|s| |s m e]; [exact I|destruct s; discriminate|discriminate|].
  destruct s; [discriminate|]. unfold below.
  unfold valid_binary, bounded, canonical_mantissa in Hv.
  apply andb_true_iff in Hv. destruct Hv as [Hc _].
  apply Z.eqb_eq in Hc. unfold fexp in Hc.
  unfold ltb, SFltb, SFcompare in Hlt.
  destruct (e ?= -44) eqn:Ecmp; try discriminate.
  - apply Z.compare_eq in Ecmp. unfold prec in Hc. lia.
  - rewrite Z.compare_lt_iff in Ecmp. unfold prec in Hc. lia.
Qed.

(** [degree_to_house] does not raise on arguments below [2 ^ 12]. *)
Lemma degree_to_house_below p a :
  below 12 p -> below 12 a ->
  exists h, HoroscopeCalculator.degree_to_house p a = Ok h.
Proof.
  intros Hp Ha. unfold HoroscopeCalculator.degree_to_house.
  pose proof (sub_below 12 p a Hp Ha ltac:(unfold emin, prec, emax; lia)
                ltac:(unfold prec, emax; lia)) as Hs.
  destruct (rem_360_below (sub p a)) as (d & -> & Hd).
  { eapply below_weaken; [|exact Hs]. unfold prec, emax. lia. }
  cbn [bind]. unfold truediv. change (is_zero (of_Z 30)) with false. cbv iota.
  pose proof (div_30_below 12 d Hd ltac:(unfold emin, prec, emax; lia)
                ltac:(unfold prec, emax; lia)) as Hq.
  cbn [bind]. destruct (to_int_below _ _ Hq) as [n ->]. cbn [bind]. eauto.
Qed.

(** [degree_to_house] is total on valid longitudes. *)
Lemma degree_to_house_total p a :
  HoroscopeSpec.valid_longitude p = true ->
  HoroscopeSpec.valid_longitude a = true ->
  exists h, HoroscopeCalculator.degree_to_house p a = Ok h.
Proof.
  intros Hp Ha. apply degree_to_house_below.
  - apply (below_weaken 9); [lia|now apply valid_longitude_below].
  - apply (below_weaken 9); [lia|now apply valid_longitude_below].
Qed.

(** Ketu's longitude [(rahu + 180) % 360] is computed without raising. *)
Lemma ketu_degree_total rahu :
  HoroscopeSpec.valid_longitude rahu = true ->
  exists k, rem (add rahu (of_Z 180)) (of_Z 360) = Ok k /\ below 12 k.
Proof.
  intros Hr. apply valid_longitude_below in Hr.
  apply rem_360_below.
  eapply below_weaken; [|apply (add_below 9 rahu (of_Z 180) Hr)].
  - unfold prec, emax. lia.
  - rewrite of_Z_180. simpl. lia.
  - unfold emin, prec, emax. lia.
  - unfold prec, emax. lia.
Qed.

End FloatFacts.

(* ================================================================= *)
(** * Properties of the chart calculator *)

Module HoroscopeFacts.
Import PyStr PyDict PyFloat HoroscopeCalculator.
Import HoroscopeSpec.

Lemma bind_Ok {A B} (r : result A) (k : A -> result B) (b : B) :
  bind r k = Ok b -> exists a, r = Ok a /\ k a = Ok b.
Proof.
  destruct r as [a|e]; simpl; intros H.
  - now exists a.
  - discriminate.
Qed.

Ltac bind_inv H :=
  let a := fresh "v" in
  let Ha := fresh "E" in
  apply bind_Ok in H; destruct H as (a & Ha & H).

(** C5.  [degree_to_house] at planet longitude 100.0 and ascendant
    longitude 100.00000000000001, both valid longitudes in [0, 360):
    the difference is a tiny negative number, adding 360 to the
    remainder rounds to exactly 360.0, and the house comes out as 13. *)
Theorem degree_to_house_yields_13 :
  valid_longitude (of_Z 100) = true /\
  valid_longitude next_after_100 = true /\
  rem (sub (of_Z 100) next_after_100) (of_Z 360) = Ok (of_Z 360) /\
  degree_to_house (of_Z 100) next_after_100 = Ok 13.
Proof. repeat split; vm_compute; reflexivity. Qed.

Section Ketu.

Variable strptime : str -> result datetime.
Variable swe_julday : Z -> Z -> Z -> float -> float.
Variable swe_houses_asc : float -> float -> float -> result float.
Variable swe_calc_ut : float -> Z -> result float.

Lemma place_planet_total jd ascendant planet_name planet_id :
  valid_longitude ascendant = true ->
  (exists d, calculate_planet_position swe_calc_ut planet_id jd = Ok d /\
             valid_longitude d = true) ->
  exists h, place_planet swe_calc_ut jd ascendant planet_name planet_id = Ok h.
Proof.
  intros Ha (d & Hd & Hv). unfold place_planet. rewrite Hd. cbn [bind].
  destruct (PyStr.eqb planet_name (lit "Ketu")).
  - destruct (FloatFacts.ketu_degree_total d Hv) as (k & -> & Hk). cbn [bind].
    apply FloatFacts.degree_to_house_below; [exact Hk|].
    apply (FloatFacts.below_weaken 9); [lia|].
    now apply FloatFacts.valid_longitude_below.
  - now apply FloatFacts.degree_to_house_total.
Qed.

Lemma chart_loop_total jd ascendant : forall planets chart,
  valid_longitude ascendant = true ->
  (forall planet_name planet_id, In (planet_name, planet_id) planets ->
     exists d, calculate_planet_position swe_calc_ut planet_id jd = Ok d /\
               valid_longitude d = true) ->
  exists chart', chart_loop swe_calc_ut jd ascendant planets chart = Ok chart'.
Proof.
  induction planets as [|[planet_name planet_id] planets IH];
    intros chart Ha Hall; simpl.
  - eauto.
  - destruct (place_planet_total jd ascendant planet_name planet_id Ha) as [h ->].
    + apply (Hall planet_name). now left.
    + cbn [bind]. apply IH; [exact Ha|]. intros n i Hin. apply (Hall n). now right.
Qed.

Lemma calculate_chart_ketu date time latitude longitude timezone_offset chart :
  calculate_chart strptime swe_julday swe_houses_asc swe_calc_ut
    date time latitude longitude timezone_offset = Ok chart ->
  exists dt ascendant rahu_degree ketu_degree h,
    strptime (date ++ lit " " ++ time) = Ok dt /\
    let jd := calculate_julian_day swe_julday (year dt) (month dt) (day dt)
                (hour dt) (minute dt) timezone_offset in
    calculate_ascendant swe_houses_asc jd latitude longitude = Ok ascendant /\
    calculate_planet_position swe_calc_ut MEAN_NODE jd = Ok rahu_degree /\
    getitem chart (lit "Rahu") = degree_to_house rahu_degree ascendant /\
    rem (add rahu_degree (of_Z 180)) (of_Z 360) = Ok ketu_degree /\
    degree_to_house ketu_degree ascendant = Ok h /\
    getitem chart (lit "Ketu") = Ok h.
Proof.
  intros H.
  unfold calculate_chart in H.
  bind_inv H. rename v into dt.
  bind_inv H. rename v into asc.
  exists dt, asc.
  cbn [items PLANETS chart_loop] in H.
  do 7 (bind_inv H; clear E1).
  bind_inv H. rename v into hr, E1 into Hrahu.
  bind_inv H. rename v into hk, E1 into Hketu.
  injection H as <-.
  unfold place_planet in Hrahu, Hketu.
  change (PyStr.eqb (lit "Rahu") (lit "Ketu")) with false in Hrahu.
  change (PyStr.eqb (lit "Ketu") (lit "Ketu")) with true in Hketu.
  cbv iota in Hrahu, Hketu.
  bind_inv Hrahu. rename v into rahu.
  bind_inv Hketu. rewrite E1 in E2. injection E2 as <-.
  bind_inv Hketu. rename v into kd.
  exists rahu, kd, hk.
  repeat split; try assumption; try (rewrite Hrahu); reflexivity.
Qed.

(** C4.  When the date parses and the ephemeris answers with valid
    longitudes (in [0, 360)) for the ascendant and the nine bodies,
    [calculate_chart] returns a chart, and the house it gives Ketu is
    [degree_to_house((rahu_degree + 180) % 360, ascendant)], where
    [rahu_degree] is the longitude of the mean node, the very position
    Rahu's own house is computed from.  The same holds of every chart
    [calculate_chart] returns, whatever the ephemeris answers.  For
    Rahu at 200 and the ascendant at 50 this is longitude 20, distance
    330, house 12. *)
Theorem ketu_house_from_rahu :
  (forall date time latitude longitude timezone_offset dt ascendant,
      strptime (date ++ lit " " ++ time) = Ok dt ->
      let jd := calculate_julian_day swe_julday (year dt) (month dt) (day dt)
                  (hour dt) (minute dt) timezone_offset in
      calculate_ascendant swe_houses_asc jd latitude longitude = Ok ascendant ->
      valid_longitude ascendant = true ->
      (forall planet_name planet_id,
          In (planet_name, planet_id) (items PLANETS) ->
          exists d, calculate_planet_position swe_calc_ut planet_id jd = Ok d /\
                    valid_longitude d = true) ->
      exists chart rahu_degree ketu_degree h,
        calculate_chart strptime swe_julday swe_houses_asc swe_calc_ut
          date time latitude longitude timezone_offset = Ok chart /\
        calculate_planet_position swe_calc_ut MEAN_NODE jd = Ok rahu_degree /\
        getitem chart (lit "Rahu") = degree_to_house rahu_degree ascendant /\
        rem (add rahu_degree (of_Z 180)) (of_Z 360) = Ok ketu_degree /\
        degree_to_house ketu_degree ascendant = Ok h /\
        getitem chart (lit "Ketu") = Ok h) /\
  (forall date time latitude longitude timezone_offset chart,
      calculate_chart strptime swe_julday swe_houses_asc swe_calc_ut
        date time latitude longitude timezone_offset = Ok chart ->
      exists dt ascendant rahu_degree ketu_degree h,
        strptime (date ++ lit " " ++ time) = Ok dt /\
        let jd := calculate_julian_day swe_julday (year dt) (month dt) (day dt)
                    (hour dt) (minute dt) timezone_offset in
        calculate_ascendant swe_houses_asc jd latitude longitude = Ok ascendant /\
        calculate_planet_position swe_calc_ut MEAN_NODE jd = Ok rahu_degree /\
        getitem chart (lit "Rahu") = degree_to_house rahu_degree ascendant /\
        rem (add rahu_degree (of_Z 180)) (of_Z 360) = Ok ketu_degree /\
        degree_to_house ketu_degree ascendant = Ok h /\
        getitem chart (lit "Ketu") = Ok h) /\
  rem (add (of_Z 200) (of_Z 180)) (of_Z 360) = Ok (of_Z 20) /\
  rem (sub (of_Z 20) (of_Z 50)) (of_Z 360) = Ok (of_Z 330) /\
  degree_to_house (of_Z 20) (of_Z 50) = Ok 12.
Proof.
  split; [|split; [exact calculate_chart_ketu|repeat split; vm_compute; reflexivity]].
  intros date time latitude longitude tz dt asc Hdt jd Hasc Hvalid Hall.
  assert (Hchart : exists chart,
    calculate_chart strptime swe_julday swe_houses_asc swe_calc_ut
      date time latitude longitude tz = Ok chart).
  { unfold calculate_chart. rewrite Hdt. cbn [bind]. fold jd. rewrite Hasc.
    cbn [bind]. now apply chart_loop_total. }
  destruct Hchart as [chart Hchart]. exists chart.
  destruct (calculate_chart_ketu _ _ _ _ _ _ Hchart)
    as (dt' & asc' & rahu & kd & h & Hdt' & Hasc' & Hr & Hgr & Hk & Hh & Hgk).
  rewrite Hdt in Hdt'. injection Hdt' as <-.
  fold jd in Hasc', Hr. rewrite Hasc in Hasc'. injection Hasc' as <-.
  exists rahu, kd, h. repeat split; assumption.
Qed.

End Ketu.

Lemma ketu_house_from_rahu_witness :
  exists chart rahu_degree ketu_degree h,
    calculate_chart stub_strptime stub_julday stub_asc stub_calc_ut
      (lit "2004-01-16") (lit "10:30") (of_Z 23) (of_Z 72) (of_Z 5) = Ok chart /\
    calculate_planet_position stub_calc_ut MEAN_NODE (of_Z 2453021) = Ok rahu_degree /\
    getitem chart (lit "Rahu") = degree_to_house rahu_degree (of_Z 50) /\
    rem (add rahu_degree (of_Z 180)) (of_Z 360) = Ok ketu_degree /\
    degree_to_house ketu_degree (of_Z 50) = Ok h /\
    getitem chart (lit "Ketu") = Ok h.
Proof.
  apply (proj1 (ketu_house_from_rahu stub_strptime stub_julday stub_asc stub_calc_ut)
           (lit "2004-01-16") (lit "10:30") (of_Z 23) (of_Z 72) (of_Z 5)
           {| year := 2004; month := 1; day := 16; hour := 10; minute := 30 |}
           (of_Z 50) eq_refl eq_refl eq_refl).
  intros planet_name planet_id Hin. simpl in Hin.
  repeat (destruct Hin as [Hin|Hin];
          [injection Hin as <- <-; eexists; split; reflexivity|]).
  destruct Hin.
Defined.

End HoroscopeFacts.

(* ================================================================= *)
(** * Properties of dicts *)

Module DictFacts.
Import PyStr PyDict.

Lemma eqb_eq (s t : str) : PyStr.eqb s t = true <-> s = t.
Proof.
  unfold PyStr.eqb. destruct (list_eq_dec ascii_dec s t); split; congruence.
Qed.

Lemma eqb_refl (s : str) : PyStr.eqb s s = true.
Proof. now apply eqb_eq. Qed.

Lemma eqb_neq (s t : str) : PyStr.eqb s t = false <-> s <> t.
Proof.
  unfold PyStr.eqb. destruct (list_eq_dec ascii_dec s t); split; congruence.
Qed.

Section Lookup.
Context {V : Type}.
Implicit Types (d : dict V) (k : str) (v : V).

Lemma get_In d k v : get d k = Some v -> In (k, v) d.
Proof.
  induction d as [|[k' v'] d IH]; simpl; [discriminate|].
  destruct (PyStr.eqb k' k) eqn:E.
  - apply eqb_eq in E. intros [= ->]. left. now subst.
  - intros H. right. now apply IH.
Qed.

Lemma get_None d k : get d k = None <-> ~ In k (keys d).
Proof.
  induction d as [|[k' v'] d IH]; simpl; [tauto|].
  destruct (PyStr.eqb k' k) eqn:E.
  - apply eqb_eq in E. split; [discriminate|]. intros H. exfalso. apply H. now left.
  - apply eqb_neq in E. rewrite IH. tauto.
Qed.

Lemma In_get d k v : wf d -> In (k, v) d -> get d k = Some v.
Proof.
  unfold wf. induction d as [|[k' v'] d IH]; simpl; [tauto|].
  intros Hnd [H|H]; inversion Hnd as [|? ? Hk Hd]; subst.
  - injection H as -> ->. now rewrite eqb_refl.
  - destruct (PyStr.eqb k' k) eqn:E.
    + apply eqb_eq in E. subst. exfalso. apply Hk.
      change k with (fst (k, v)). now apply in_map.
    + now apply IH.
Qed.

Lemma get_delitem_same d k : get (delitem d k) k = None.
Proof.
  induction d as [|[k' v'] d IH]; simpl; [reflexivity|].
  destruct (PyStr.eqb k' k) eqn:E; simpl; [exact IH|].
  now rewrite E.
Qed.

Lemma get_setitem_same d k v : get (setitem d k v) k = Some v.
Proof.
  induction d as [|[k' v'] d IH]; simpl.
  - now rewrite eqb_refl.
  - destruct (PyStr.eqb k' k) eqn:E; simpl; now rewrite E.
Qed.

End Lookup.
End DictFacts.

(* ================================================================= *)
(** * Properties of the chart model *)

Module HouseFacts.
Import PyStr PyDict DictFacts LalKitabHouseSystem.
Import HouseSpec.

Lemma validate_loop_total chart planets :
  exists b, validate_loop chart planets = Ok b.
Proof.
  induction planets as [|p ps IH]; simpl; [now exists true|].
  unfold contains, getitem. destruct (get chart p) as [h|]; simpl.
  - destruct ((1 <=? h) && (h <=? 12)); simpl; [exact IH|now exists false].
  - now exists false.
Qed.

Lemma validate_loop_true chart planets :
  validate_loop chart planets = Ok true <-> placed chart planets.
Proof.
  unfold placed. induction planets as [|p ps IH]; simpl.
  - split; [intros _ p []|reflexivity].
  - unfold contains, getitem. destruct (get chart p) as [h|] eqn:G; simpl.
    + destruct ((1 <=? h) && (h <=? 12)) eqn:R; simpl.
      * rewrite IH. apply andb_true_iff in R. destruct R as [R1 R2].
        apply Z.leb_le in R1. apply Z.leb_le in R2.
        split.
        -- intros H q [<-|Hq]; [exists h; unfold in_1_12; auto|auto].
        -- intros H q Hq. apply H. now right.
      * split; [discriminate|]. intros H.
        destruct (H p (or_introl eq_refl)) as (h' & G' & R1 & R2).
        rewrite G in G'. injection G' as <-.
        apply Z.leb_le in R1. apply Z.leb_le in R2.
        rewrite R1, R2 in R. discriminate.
    + split; [discriminate|]. intros H.
      destruct (H p (or_introl eq_refl)) as (h' & G' & _). congruence.
Qed.

Lemma validate_chart_not_placed chart :
  ~ placed chart required_planets -> validate_chart chart = Ok false.
Proof.
  intros H. destruct (validate_loop_total chart required_planets) as [[|] E].
  - exfalso. apply H. now apply validate_loop_true.
  - exact E.
Qed.

(** A key outside the nine planets is not examined: with the nine
    planets in range and a tenth key whose house is 13,
    [validate_chart] answers true.  This is why the keys of a chart are
    required to be planets below. *)
Lemma validate_chart_ignores_other_keys :
  wf chart_with_extra_key /\
  ~ (validate_chart chart_with_extra_key = Ok true <->
     all_houses_in_range chart_with_extra_key).
Proof.
  split.
  - unfold wf. simpl.
    repeat (constructor; [simpl; intuition discriminate|]). constructor.
  - intros [H _]. specialize (H eq_refl). destruct H as [_ H].
    specialize (H (lit "Pluto") 13). unfold in_1_12 in H.
    assert (1 <= 13 <= 12) by (apply H; simpl; tauto). lia.
Qed.

(** On any dict, [validate_chart] never raises; it answers true exactly
    when each of the nine required planets is a key whose own house lies
    in [1, 12]; removing a required planet, or setting a required
    planet's house to 0 or 13, makes the answer false. *)
Lemma validate_chart_required_planets (chart : dict Z) :
  (exists b, validate_chart chart = Ok b) /\
  (validate_chart chart = Ok true <-> placed chart required_planets) /\
  (forall p, In p required_planets ->
     validate_chart (delitem chart p) = Ok false) /\
  (forall p h, In p required_planets -> h = 0 \/ h = 13 ->
     validate_chart (setitem chart p h) = Ok false).
Proof.
  split; [apply validate_loop_total|].
  split; [apply validate_loop_true|].
  split.
  - intros p Hp. apply validate_chart_not_placed. intros H.
    destruct (H p Hp) as (h & G & _). rewrite get_delitem_same in G. discriminate.
  - intros p h Hp Hh. apply validate_chart_not_placed. intros H.
    destruct (H p Hp) as (h' & G & R). rewrite get_setitem_same in G.
    injection G as <-. unfold in_1_12 in R. lia.
Qed.

(** On charts whose keys are all required planets the two readings of
    validity agree. *)
Lemma validate_chart_closed_keys (chart : dict Z) :
  wf chart ->
  (forall p, In p (keys chart) -> In p required_planets) ->
  (validate_chart chart = Ok true <-> all_houses_in_range chart).
Proof.
  intros Hwf Hk. unfold validate_chart. rewrite validate_loop_true.
  unfold placed, all_houses_in_range, contains. split.
  - intros H. split.
    + intros p Hp. destruct (H p Hp) as (h & -> & _). reflexivity.
    + intros p h Hin. destruct (H p) as (h' & G & R).
      * apply Hk. change p with (fst (p, h)). now apply in_map.
      * rewrite (In_get _ _ _ Hwf Hin) in G. now injection G as <-.
  - intros [H1 H2] p Hp. specialize (H1 p Hp).
    destruct (get chart p) as [h|] eqn:G; [|discriminate].
    exists h. split; [reflexivity|]. apply (H2 p). now apply get_In.
Qed.

(** C6.  For every chart, a dict whose keys are planets of the nine:
    [validate_chart] never raises; it returns true if and only if all
    nine required planets are keys and every house value of the chart
    lies in [1, 12]; removing any one required planet, or setting the
    house of any planet to 0 or 13, makes it return false. *)
Theorem validate_chart_iff_valid (chart : dict Z) :
  wf chart ->
  (forall p, In p (keys chart) -> In p required_planets) ->
  (exists b, validate_chart chart = Ok b) /\
  (validate_chart chart = Ok true <-> all_houses_in_range chart) /\
  (forall p, In p required_planets ->
     validate_chart (delitem chart p) = Ok false) /\
  (forall p h, In p required_planets -> h = 0 \/ h = 13 ->
     validate_chart (setitem chart p h) = Ok false).
Proof.
  intros Hwf Hkeys.
  destruct (validate_chart_required_planets chart) as (Hret & _ & Hdel & Hset).
  split; [exact Hret|].
  split; [now apply validate_chart_closed_keys|].
  split; [exact Hdel|exact Hset].
Qed.

Lemma validate_chart_iff_valid_witness :
  validate_chart sample_chart = Ok true /\
  all_houses_in_range sample_chart /\
  validate_chart (delitem sample_chart (lit "Mars")) = Ok false /\
  validate_chart (setitem sample_chart (lit "Venus") 13) = Ok false.
Proof.
  assert (Hwf : wf sample_chart).
  { unfold wf. simpl.
    repeat (constructor; [simpl; intuition discriminate|]). constructor. }
  assert (Hkeys : forall p, In p (keys sample_chart) -> In p required_planets).
  { intros p Hp. simpl in Hp |- *. tauto. }
  pose proof (validate_chart_iff_valid sample_chart Hwf Hkeys)
    as (_ & Hiff & Hdel & Hset).
  split; [reflexivity|]. split; [now apply Hiff|]. split.
  - apply Hdel. simpl. tauto.
  - apply Hset; [simpl; tauto|now right].
Defined.

Lemma houses_1_12_spec h : In h houses_1_12 <-> in_1_12 h.
Proof.
  unfold houses_1_12, in_1_12. rewrite in_map_iff. split.
  - intros (n & <- & Hn). apply in_seq in Hn. lia.
  - intros H. exists (Z.to_nat h). split; [lia|]. apply in_seq. lia.
Qed.

Lemma in_bucket (chart : dict Z) (house : Z) (p : str) :
  In p (get_planets_in_house chart house) <-> In (p, house) (items chart).
Proof.
  unfold get_planets_in_house. rewrite in_map_iff. split.
  - intros ([q h] & <- & H). apply filter_In in H. destruct H as [H E].
    simpl in E. apply Z.eqb_eq in E. now subst.
  - intros H. exists (p, house). split; [reflexivity|].
    apply filter_In. split; [exact H|]. simpl. apply Z.eqb_refl.
Qed.

Lemma NoDup_map_filter {A B} (f : A -> B) (g : A -> bool) (l : list A) :
  NoDup (map f l) -> NoDup (map f (filter g l)).
Proof.
  induction l as [|a l IH]; simpl; [auto|].
  intros H. inversion H as [|? ? Ha Hl]; subst.
  destruct (g a); simpl; [|auto].
  constructor; [|auto].
  intros Hin. apply Ha. apply in_map_iff in Hin. destruct Hin as (x & Hx & Hin).
  apply filter_In in Hin. apply in_map_iff. exists x. tauto.
Qed.

(** C7.  For a chart (a dict, so with distinct keys),
    [get_planets_in_house] returns, for any house value, exactly the
    planets assigned to it, each once, and no planet sits in two
    buckets; when the chart's houses lie in [1, 12], every planet of the
    chart is in the bucket of exactly one house of 1..12, and a house
    outside [1, 12] has an empty bucket. *)
Theorem planets_in_house_partition (chart : dict Z) :
  wf chart ->
  (forall house p,
     In p (get_planets_in_house chart house) <-> get chart p = Some house) /\
  (forall house, NoDup (get_planets_in_house chart house)) /\
  (forall p h h',
     In p (get_planets_in_house chart h) ->
     In p (get_planets_in_house chart h') -> h = h') /\
  ((forall p h, In (p, h) (items chart) -> in_1_12 h) ->
   (forall p, In p (keys chart) ->
      exists h, In h houses_1_12 /\ In p (get_planets_in_house chart h) /\
                forall h', In p (get_planets_in_house chart h') -> h' = h) /\
   (forall p, In p (flat_map (get_planets_in_house chart) houses_1_12) <->
              In p (keys chart)) /\
   (forall house, ~ in_1_12 house -> get_planets_in_house chart house = [])).
Proof.
  intros Hwf.
  assert (Hmem : forall house p,
             In p (get_planets_in_house chart house) <-> get chart p = Some house).
  { intros house p. rewrite in_bucket. split; [now apply In_get|apply get_In]. }
  assert (Huniq : forall p h h',
             In p (get_planets_in_house chart h) ->
             In p (get_planets_in_house chart h') -> h = h').
  { intros p h h' H1 H2. apply Hmem in H1. apply Hmem in H2. congruence. }
  split; [exact Hmem|].
  split; [intros house; now apply NoDup_map_filter|].
  split; [exact Huniq|].
  intros Hrange.
  assert (Hcover : forall p, In p (keys chart) ->
             exists h, In h houses_1_12 /\ In p (get_planets_in_house chart h)).
  { intros p Hp. unfold keys in Hp. apply in_map_iff in Hp.
    destruct Hp as ([q h] & <- & Hin). exists h. split.
    - apply houses_1_12_spec. now apply (Hrange q).
    - now apply in_bucket. }
  split; [|split].
  - intros p Hp. destruct (Hcover p Hp) as (h & Hh & Hin).
    exists h. repeat split; auto. intros h' Hin'. now apply (Huniq p).
  - intros p. rewrite in_flat_map. split.
    + intros (h & _ & Hin). apply in_bucket in Hin.
      change p with (fst (p, h)). now apply in_map.
    + apply Hcover.
  - intros house Hout.
    destruct (get_planets_in_house chart house) as [|p l] eqn:E; [reflexivity|].
    exfalso. apply Hout. apply (Hrange p). apply in_bucket. rewrite E. now left.
Qed.

Lemma planets_in_house_partition_witness :
  wf sample_chart /\
  get_planets_in_house sample_chart 12 = [lit "Venus"; lit "Ketu"] /\
  (forall p, In p (get_planets_in_house sample_chart 12) <->
             get sample_chart p = Some 12) /\
  get_planets_in_house sample_chart 13 = [].
Proof.
  assert (Hwf : wf sample_chart).
  { unfold wf. simpl.
    repeat (constructor; [simpl; intuition discriminate|]). constructor. }
  pose proof (planets_in_house_partition sample_chart Hwf) as (Hmem & _ & _ & Hrange).
  split; [exact Hwf|]. split; [reflexivity|]. split; [apply Hmem|].
  apply Hrange.
  - intros p h Hin. unfold in_1_12. simpl in Hin.
    repeat (destruct Hin as [[= <- <-]|Hin]; [lia|]). destruct Hin.
  - unfold in_1_12. lia.
Defined.

End HouseFacts.

(* ================================================================= *)
(** * Properties of the metadata-filtered query *)

Module QueryFacts.
Import PyStr PyDict PyFloat PineconeClient.
Import QuerySpec.

Section Service.

Variable Index : Type.
Variable index_query :
  Index -> list float -> metadata_filter -> nat -> result (list scored_vector).

#[local, warnings="-notation-for-abbreviation"]
Notation lookup_pair := (QuerySpec.lookup_pair Index index_query).
#[local, warnings="-notation-for-abbreviation"]
Notation pair_rules := (QuerySpec.pair_rules Index index_query).
#[local, warnings="-notation-for-abbreviation"]
Notation pair_warnings := (QuerySpec.pair_warnings Index index_query).

Lemma query_loop_spec idx top_k pairs all_results out :
  query_loop Index index_query idx top_k pairs all_results out =
  (all_results ++ flat_map (pair_rules idx top_k) pairs,
   out ++ flat_map (pair_warnings idx top_k) pairs).
Proof.
  revert all_results out.
  induction pairs as [|[planet house] pairs IH]; intros all_results out; simpl.
  - now rewrite !app_nil_r.
  - unfold QuerySpec.pair_rules, QuerySpec.pair_warnings, QuerySpec.lookup_pair. simpl.
    destruct (index_query idx zero_vector (pair_filter planet house) top_k)
      as [matches|e]; rewrite IH; simpl.
    + now rewrite app_assoc.
    + now rewrite <- app_assoc.
Qed.

Lemma query_by_chart_connected self idx chart top_k :
  index Index self = Some idx ->
  query_by_chart Index index_query self chart top_k =
  (Ok (flat_map (pair_rules idx top_k) (items chart)),
   flat_map (pair_warnings idx top_k) (items chart)
   ++ [Line (lit "pinrcone_client.py: query_by_chart");
       Dump (flat_map (pair_rules idx top_k) (items chart))]).
Proof.
  intros Hidx. unfold query_by_chart. rewrite Hidx, query_loop_spec. reflexivity.
Qed.

(** C1.  On a connected client, when the lookup of one pair of the
    chart raises, [query_by_chart] still returns, without raising, the
    rules of all pairs before it followed by those of all pairs after
    it, which is what it returns for the chart without that pair, and
    the warning about the pair is printed. *)
Theorem query_by_chart_skips_failed_pair
    self idx chart top_k before planet house after e :
  index Index self = Some idx ->
  items chart = before ++ (planet, house) :: after ->
  index_query idx zero_vector (pair_filter planet house) top_k = Raise e ->
  let others := flat_map (pair_rules idx top_k) before
                ++ flat_map (pair_rules idx top_k) after in
  fst (query_by_chart Index index_query self chart top_k) = Ok others /\
  fst (query_by_chart Index index_query self (before ++ after) top_k) = Ok others /\
  In (warning planet house e)
     (snd (query_by_chart Index index_query self chart top_k)).
Proof.
  intros Hidx Hitems Hfail others.
  rewrite !(query_by_chart_connected _ idx) by exact Hidx. simpl.
  assert (Hr : pair_rules idx top_k (planet, house) = []).
  { unfold QuerySpec.pair_rules, QuerySpec.lookup_pair. simpl. now rewrite Hfail. }
  assert (Hw : pair_warnings idx top_k (planet, house) = [warning planet house e]).
  { unfold QuerySpec.pair_warnings, QuerySpec.lookup_pair. simpl. now rewrite Hfail. }
  rewrite Hitems. unfold items.
  rewrite !flat_map_app. simpl. rewrite Hr, Hw. simpl.
  repeat split.
  apply in_or_app. left. apply in_or_app. right. now left.
Qed.

End Service.

Lemma query_by_chart_skips_failed_pair_witness :
  fst (query_by_chart unit stub_query stub_client
         [(lit "Sun", 1); (lit "Moon", 2); (lit "Mars", 3)] 10)
  = Ok [stub_rule (lit "Sun") 1; stub_rule (lit "Mars") 3].
Proof.
  exact (proj1 (query_by_chart_skips_failed_pair unit stub_query stub_client tt
                  [(lit "Sun", 1); (lit "Moon", 2); (lit "Mars", 3)] 10
                  [(lit "Sun", 1)] (lit "Moon") 2 [(lit "Mars", 3)]
                  (ServiceError (lit "timeout")) eq_refl eq_refl eq_refl)).
Defined.

End QueryFacts.

(* ================================================================= *)
(** * Properties of the birth-data gate *)

Module GateFacts.
Import PyStr PyDict PyFloat App.
Import GateSpec.

Section Gate.

Variable extract_birth_data_with_llm : str -> extraction.
Variable validate_astrology_question : str -> bool.
Variable generate_initial_summary : dict Z -> result str.
Variable answer_question : str -> session_state -> result str.

Variable strptime : str -> result HoroscopeCalculator.datetime.
Variable swe_julday : Z -> Z -> Z -> float -> float.
Variable swe_houses_asc : float -> float -> float -> result float.
Variable swe_calc_ut : float -> Z -> result float.
Variable get_coordinates : str -> result (option (float * float)).

#[local, warnings="-notation-for-abbreviation"]
Notation calculator :=
  (GateSpec.calculator strptime swe_julday swe_houses_asc swe_calc_ut
     get_coordinates).
#[local, warnings="-notation-for-abbreviation"]
Notation step :=
  (GateSpec.step extract_birth_data_with_llm validate_astrology_question
     generate_initial_summary answer_question
     strptime swe_julday swe_houses_asc swe_calc_ut get_coordinates).

(** C9.  While no birth data is stored, a message classified as
    complete whose chart computation raises leaves the session exactly
    as it was: no birth data stored, the gate awaiting birth data, the
    reply reporting the failure; and a place the geocoder cannot resolve
    makes the chart computation raise. *)
Theorem failed_chart_discards_birth_data :
  (forall message st data e,
      session_birth_data st = None ->
      extract_birth_data_with_llm message = Complete data ->
      generate_chart calculator data = Raise e ->
      step message st = (ChartFailed e, st) /\
      session_birth_data (snd (step message st)) = None /\
      gate (snd (step message st)) = AWAITING_BIRTH_DATA) /\
  (forall data,
      get_coordinates (place data) = Ok None ->
      exists msg, generate_chart calculator data = Raise (RuntimeError msg)).
Proof.
  split.
  - intros message st data e Hnone Hext Hfail.
    assert (E : step message st = (ChartFailed e, st)).
    { unfold GateSpec.step, process_user_message. rewrite Hnone, Hext, Hfail.
      destruct st as [c b a i]. simpl in *. now subst. }
    rewrite E. simpl. unfold gate. now rewrite Hnone.
  - intros data Hgeo. unfold generate_chart, GateSpec.calculator,
      HoroscopeCalculator.calculate_chart_by_place.
    rewrite Hgeo. simpl. eauto.
Qed.

End Gate.

Lemma failed_chart_discards_birth_data_witness :
  snd (stub_step (lit "born 16 jan 2004 10:30 Atlantis") fresh_session)
  = fresh_session.
Proof.
  assert (H := proj1 (failed_chart_discards_birth_data
    stub_extract (fun _ => true) (fun _ => Ok []) (fun _ _ => Ok [])
    HoroscopeSpec.stub_strptime HoroscopeSpec.stub_julday
    HoroscopeSpec.stub_asc HoroscopeSpec.stub_calc_ut stub_geocoder)
    (lit "born 16 jan 2004 10:30 Atlantis") fresh_session stub_data _
    eq_refl eq_refl eq_refl).
  unfold stub_step. now rewrite (proj1 H).
Defined.

End GateFacts.

(* ================================================================= *)
(** * Properties of the matcher *)

Module ReFacts.
Import PyStr Re ReSpec.

Lemma firstn_prefix {A} (w t : list A) (n p : nat) :
  n = (p + length w - p)%nat -> firstn n (w ++ t) = w.
Proof.
  intros ->. replace (p + length w - p)%nat with (length w + 0)%nat by lia.
  now rewrite firstn_app_2, firstn_O, app_nil_r.
Qed.

Lemma skipn_prefix {A} (w t : list A) : skipn (length w) (w ++ t) = t.
Proof.
  now rewrite skipn_app, skipn_all, Nat.sub_diag.
Qed.

Lemma last_char_app pv w1 w2 :
  last_char pv (w1 ++ w2) = last_char (last_char pv w1) w2.
Proof. apply fold_left_app. Qed.

Lemma star_sound p s : forall c k res,
  rest c = s ->
  star p s c k = Some res ->
  exists w c',
    rest c = w ++ rest c' /\ pos c' = (pos c + length w)%nat /\
    prev c' = last_char (prev c) w /\ caps c' = caps c /\
    forallb p w = true /\ k c' = Some res.
Proof.
  induction s as [|x s' IH]; intros c k res Hs H; simpl in H.
  - exists [], c. rewrite Nat.add_0_r. now repeat split.
  - assert (Hstop : k c = Some res ->
      exists w c', rest c = w ++ rest c' /\ pos c' = (pos c + length w)%nat /\
        prev c' = last_char (prev c) w /\ caps c' = caps c /\
        forallb p w = true /\ k c' = Some res).
    { intros Hk. exists [], c. rewrite Nat.add_0_r. now repeat split. }
    destruct (p x) eqn:Hp; [|now apply Hstop].
    destruct (star p s' (advance x s' c) k) as [res'|] eqn:E; [|now apply Hstop].
    injection H as ->.
    apply IH in E; [|reflexivity].
    destruct E as (w & c' & Hr & Hpos & Hpv & Hg & Hall & Hk).
    simpl in Hr, Hpos, Hpv, Hg.
    exists (x :: w), c'. simpl. rewrite Hp, Hall, Hs, Hr.
    repeat split; auto. lia.
Qed.

(** Soundness of the matcher: a successful run reads some word matched
    by the expression and hands the cursor behind it to the
    continuation. *)
Lemma run_sound r : forall c k res,
  run r c k = Some res ->
  exists w c', reaches r c w c' /\ k c' = Some res.
Proof.
  unfold reaches.
  induction r as [| |a|p|r1 IH1 r2 IH2|r1 IH1 r2 IH2|p|r1 IH1|n r1 IH1];
    intros c k res H; simpl in H.
  - exists [], c. rewrite Nat.add_0_r. repeat split; auto. constructor.
  - destruct (at_bol (prev c)) eqn:E; [|discriminate].
    exists [], c. rewrite Nat.add_0_r. repeat split; auto. now constructor.
  - destruct (rest c) as [|x s'] eqn:Hr; [discriminate|].
    destruct (chr_eqb a x) eqn:E; [|discriminate].
    exists [x], (advance x s' c). simpl. repeat split; auto; [lia|now constructor].
  - destruct (rest c) as [|x s'] eqn:Hr; [discriminate|].
    destruct (p x) eqn:E; [|discriminate].
    exists [x], (advance x s' c). simpl. repeat split; auto; [lia|now constructor].
  - apply IH1 in H. destruct H as (w1 & c1 & (Hr1 & Hp1 & Hv1 & Hs1) & H).
    apply IH2 in H. destruct H as (w2 & c2 & (Hr2 & Hp2 & Hv2 & Hs2) & H).
    exists (w1 ++ w2), c2. rewrite length_app, last_char_app, <- app_assoc.
    rewrite <- Hr2, <- Hv1. repeat split; auto; [lia|].
    apply sem_seq with (g1 := caps c1); [exact Hs1|]. now rewrite <- Hv1.
  - destruct (run r1 c k) as [res'|] eqn:E.
    + injection H as ->. apply IH1 in E.
      destruct E as (w & c' & (? & ? & ? & ?) & ?).
      exists w, c'. repeat split; auto. now apply sem_alt_l.
    + apply IH2 in H. destruct H as (w & c' & (? & ? & ? & ?) & ?).
      exists w, c'. repeat split; auto. now apply sem_alt_r.
  - destruct (rest c) as [|x s'] eqn:Hr; [discriminate|].
    destruct (p x) eqn:E; [|discriminate].
    apply star_sound in H; [|reflexivity].
    destruct H as (w & c' & Hr' & Hpos & Hpv & Hg & Hall & Hk).
    simpl in Hr', Hpos, Hpv, Hg.
    exists (x :: w), c'. simpl. rewrite Hr', Hg.
    repeat split; auto; [lia|now constructor].
  - destruct (run r1 c k) as [res'|] eqn:E.
    + injection H as ->. apply IH1 in E.
      destruct E as (w & c' & (? & ? & ? & ?) & ?).
      exists w, c'. repeat split; auto. now apply sem_opt_some.
    + exists [], c. rewrite Nat.add_0_r. repeat split; auto. apply sem_opt_none.
  - apply IH1 in H. destruct H as (w & c1 & (Hr1 & Hp1 & Hv1 & Hs1) & H).
    eexists w, _. split; [|exact H]. simpl.
    repeat split; auto.
    replace (firstn (pos c1 - pos c) (rest c)) with w; [now constructor|].
    rewrite Hr1. symmetry. apply (firstn_prefix _ _ _ (pos c)). now rewrite Hp1.
Qed.

(** What a match object records about the place it was found at. *)
Lemma match_here_sound r pv p s m :
  match_here r pv p s = Some m ->
  m_start m = p /\
  m_end m = (p + length (m_group0 m))%nat /\
  s = m_group0 m ++ skipn (length (m_group0 m)) s /\
  sem r pv (m_group0 m) [] (m_groups m).
Proof.
  unfold match_here.
  destruct (run r _ Some) as [c|] eqn:E; [|discriminate].
  intros [= <-]. simpl.
  apply run_sound in E. destruct E as (w & c' & (Hr & Hp & Hv & Hs) & [= ->]).
  cbn [pos prev rest caps] in Hr, Hp, Hv, Hs. subst s.
  rewrite (firstn_prefix w (rest c) _ p) by now rewrite Hp.
  rewrite skipn_prefix. repeat split; auto.
Qed.

End ReFacts.

(* ================================================================= *)
(** * Properties of the heading matcher *)

Module ParserFacts.
Import PyStr Re ReSpec ReFacts RegexParser ParserSpec.

(** ** Inversion of the semantics *)

Lemma sem_seq_inv r1 r2 pv w g g2 :
  sem (Seq r1 r2) pv w g g2 ->
  exists w1 w2 g1,
    w = w1 ++ w2 /\ sem r1 pv w1 g g1 /\ sem r2 (last_char pv w1) w2 g1 g2.
Proof. inversion 1; subst; eauto 7. Qed.

Lemma sem_alt_inv r1 r2 pv w g g' :
  sem (Alt r1 r2) pv w g g' -> sem r1 pv w g g' \/ sem r2 pv w g g'.
Proof. inversion 1; subst; auto. Qed.

Lemma sem_group_inv n r pv w g g' :
  sem (Group n r) pv w g g' -> exists g1, g' = (n, w) :: g1 /\ sem r pv w g g1.
Proof. inversion 1; subst; eauto. Qed.

Lemma sem_plus_inv p pv w g g' :
  sem (Plus p) pv w g g' -> g' = g /\ w <> [] /\ forallb p w = true.
Proof.
  intros H.
  inversion H as [| | | | | | |p' x w' pv' g0 Hx Hw| | |]; subst.
  repeat split; [discriminate|].
  simpl. now rewrite Hx, Hw.
Qed.

Lemma sem_chr_inv a pv w g g' :
  sem (Chr a) pv w g g' -> g' = g /\ exists x, w = [x] /\ chr_eqb a x = true.
Proof. inversion 1; subst; eauto. Qed.

Lemma sem_cls_inv p pv w g g' :
  sem (Cls p) pv w g g' -> g' = g /\ exists x, w = [x] /\ p x = true.
Proof. inversion 1; subst; eauto. Qed.

Lemma sem_bol_inv pv w g g' :
  sem Bol pv w g g' -> g' = g /\ w = [] /\ at_bol pv = true.
Proof. inversion 1; subst; auto. Qed.

Lemma sem_opt_inv r pv w g g' :
  sem (Opt r) pv w g g' -> sem r pv w g g' \/ (w = [] /\ g' = g).
Proof. inversion 1; subst; auto. Qed.

Lemma sem_chars s : forall pv w g g',
  sem (chars s) pv w g g' -> g' = g /\ spells s w.
Proof.
  unfold spells.
  induction s as [|a s IH]; intros pv w g g' H.
  - inversion H; subst. split; [reflexivity|constructor].
  - destruct s as [|b s].
    + apply sem_chr_inv in H. destruct H as (-> & x & -> & E).
      split; [reflexivity|]. repeat constructor. exact E.
    + change (chars (a :: b :: s)) with (Seq (Chr a) (chars (b :: s))) in H.
      apply sem_seq_inv in H. destruct H as (w1 & w2 & g1 & -> & H1 & H2).
      apply sem_chr_inv in H1. destruct H1 as (-> & x & -> & E).
      apply IH in H2. destruct H2 as (-> & H2).
      split; [reflexivity|]. simpl. now constructor.
Qed.

Lemma sem_alts rs r pv w g g' :
  sem (alts rs r) pv w g g' -> exists r', In r' (rs ++ [r]) /\ sem r' pv w g g'.
Proof.
  induction rs as [|r0 rs IH]; simpl; intros H.
  - exists r. auto.
  - apply sem_alt_inv in H. destruct H as [H|H].
    + exists r0. auto.
    + destruct (IH H) as (r' & Hin & Hs). exists r'. auto.
Qed.

(** An alternation of literal words leaves the groups alone and reads
    one of the words. *)
Lemma sem_alts_chars (ss : list str) (s : str) pv w g g' :
  sem (alts (map chars ss) (chars s)) pv w g g' ->
  g' = g /\ exists s', In s' (ss ++ [s]) /\ spells s' w.
Proof.
  intros H. apply sem_alts in H. destruct H as (r' & Hin & Hs).
  change [chars s] with (map chars [s]) in Hin. rewrite <- map_app in Hin.
  apply in_map_iff in Hin. destruct Hin as (s' & <- & Hin).
  apply sem_chars in Hs. destruct Hs as [-> Hs]. eauto.
Qed.

(** ** The shape of a heading *)

Lemma pattern_shape pv w g :
  sem planet_house_pattern pv w [] g -> heading_shape pv w g.
Proof.
  unfold planet_house_pattern. intros H.
  apply sem_seq_inv in H. destruct H as (w0 & t1 & g0 & -> & H0 & H).
  apply sem_bol_inv in H0. destruct H0 as (-> & -> & Hbol).
  apply sem_seq_inv in H. destruct H as (g1 & t2 & gs1 & -> & H1 & H).
  apply sem_group_inv in H1. destruct H1 as (gs1' & -> & H1).
  apply (sem_alts_chars
           [lit "Sun"; lit "Moon"; lit "Mars"; lit "Mercury"; lit "Jupiter";
            lit "Venus"; lit "Saturn"; lit "Rahu"] (lit "Ketu")) in H1.
  destruct H1 as (-> & name & Hname & Hg1).
  apply sem_seq_inv in H. destruct H as (ws1 & t3 & gs3 & -> & Hws1 & H).
  apply sem_plus_inv in Hws1. destruct Hws1 as (-> & Hws1).
  apply sem_seq_inv in H. destruct H as (kw & t4 & gs4 & -> & Hkw & H).
  apply sem_chars in Hkw. destruct Hkw as (-> & Hkw).
  apply sem_seq_inv in H. destruct H as (ws2 & t5 & gs5 & -> & Hws2 & H).
  apply sem_plus_inv in Hws2. destruct Hws2 as (-> & Hws2).
  apply sem_seq_inv in H. destruct H as (g2 & t6 & gs6 & -> & H2 & H).
  apply sem_group_inv in H2. destruct H2 as (gs2 & -> & H2).
  assert (Hord : gs2 = [(1%nat, g1)] /\ ordinal g2).
  { apply sem_alt_inv in H2. destruct H2 as [H2|H2].
    - apply sem_plus_inv in H2. destruct H2 as (-> & H2). split; [reflexivity|now left].
    - apply sem_chr_inv in H2. destruct H2 as (-> & x & -> & E).
      split; [reflexivity|]. right. repeat constructor. exact E. }
  destruct Hord as (-> & Hord).
  apply sem_seq_inv in H. destruct H as (suf & t7 & gs7 & -> & Hsuf & H).
  assert (Hsuf' : gs7 = [(2%nat, g2); (1%nat, g1)] /\
            (suf = [] \/ exists s, In s [lit "st"; lit "nd"; lit "rd"; lit "th"]
                                   /\ spells s suf)).
  { apply sem_opt_inv in Hsuf. destruct Hsuf as [Hsuf|[-> ->]]; [|auto].
    apply (sem_alts_chars [lit "st"; lit "nd"; lit "rd"] (lit "th")) in Hsuf.
    destruct Hsuf as (-> & s & Hs & Hsp). split; [reflexivity|]. right. eauto. }
  destruct Hsuf' as (-> & Hsuf').
  apply sem_seq_inv in H. destruct H as (ws3 & t8 & gs8 & -> & Hws3 & H).
  apply sem_plus_inv in Hws3. destruct Hws3 as (-> & Hws3).
  apply sem_seq_inv in H. destruct H as (h & ouse & gs9 & -> & Hh & H).
  apply sem_cls_inv in Hh. destruct Hh as (-> & x & -> & Hh).
  apply sem_chars in H. destruct H as (-> & House).
  constructor; [exact Hbol|].
  exists name, g1, ws1, kw, ws2, g2, suf, ws3, ([x] ++ ouse).
  simpl. repeat split; try tauto; try exact Hname.
  constructor; [exact Hh|exact House].
Qed.

(** ** Characters *)

Ltac each_ascii x :=
  destruct x as [[|] [|] [|] [|] [|] [|] [|] [|]].

Lemma code_inj (a b : ascii) : code a = code b -> a = b.
Proof.
  unfold code. intros H.
  rewrite <- (ascii_N_embedding a), <- (ascii_N_embedding b). now rewrite H.
Qed.

Lemma chr_eqb_lower a x : chr_eqb a x = true -> lower_char x = lower_char a.
Proof. unfold chr_eqb. intros H. apply N.eqb_eq in H. now apply code_inj. Qed.

Lemma isspace_lower x : isspace x = true -> lower_char x = x.
Proof. each_ascii x; vm_compute; intros H; solve [reflexivity | discriminate H]. Qed.

Lemma upper_of_lower x :
  in_range 97 122 (lower_char x) = true ->
  upper_char x = shift_code (-32) (lower_char x).
Proof. each_ascii x; vm_compute; intros H; solve [reflexivity | discriminate H]. Qed.

Lemma chr_eqb_I x : chr_eqb "I" x = true -> x = "I"%char \/ x = "i"%char.
Proof.
  each_ascii x; vm_compute; intros H;
    solve [discriminate H | left; reflexivity | right; reflexivity].
Qed.

(** A character that matches a letter is not a blank. *)
Lemma chr_eqb_nonspace a x :
  isspace (lower_char a) = false -> chr_eqb a x = true -> isspace x = false.
Proof.
  intros Ha H. apply chr_eqb_lower in H.
  destruct (isspace x) eqn:E; [|reflexivity].
  rewrite (isspace_lower x E) in H. subst x. congruence.
Qed.

Lemma spells_length s w : spells s w -> length w = length s.
Proof. induction 1; simpl; auto. Qed.

Lemma spells_lower s w : spells s w -> map lower_char w = map lower_char s.
Proof.
  induction 1 as [|a x s w E _ IH]; simpl; [reflexivity|].
  now rewrite (chr_eqb_lower a x E), IH.
Qed.

(** [capitalize] undoes the freedom of case the pattern leaves. *)
Lemma spells_capitalize s w :
  spells s w ->
  match s with a :: _ => in_range 97 122 (lower_char a) = true | [] => True end ->
  capitalize w = capitalize s.
Proof.
  intros H. destruct H as [|a x s w E H]; [reflexivity|]. intros Ha. simpl.
  rewrite (spells_lower _ _ H). f_equal.
  rewrite (upper_of_lower a Ha), upper_of_lower.
  - now rewrite (chr_eqb_lower a x E).
  - now rewrite (chr_eqb_lower a x E).
Qed.

Lemma planet_capitalized name g1 :
  In name PLANETS -> spells name g1 -> capitalize g1 = name.
Proof.
  intros Hin Hsp. rewrite (spells_capitalize _ _ Hsp).
  - simpl in Hin. repeat (destruct Hin as [<-|Hin]; [reflexivity|]). destruct Hin.
  - simpl in Hin. repeat (destruct Hin as [<-|Hin]; [reflexivity|]). destruct Hin.
Qed.

Lemma planet_first_letter name g1 :
  In name PLANETS -> spells name g1 ->
  exists x g1', g1 = x :: g1' /\ isspace x = false.
Proof.
  intros Hin Hsp. destruct Hsp as [|a x s w E H].
  - exfalso. simpl in Hin. repeat (destruct Hin as [Hin|Hin]; [discriminate|]).
    destruct Hin.
  - exists x, w. split; [reflexivity|]. apply (chr_eqb_nonspace a); [|exact E].
    simpl in Hin.
    repeat (destruct Hin as [Hin|Hin]; [injection Hin as <- _; reflexivity|]).
    destruct Hin.
Qed.

Lemma house_last_letter hse :
  spells (lit "house") hse ->
  exists front y, hse = front ++ [y] /\ isspace y = false.
Proof.
  intros H. unfold spells in H.
  inversion H as [|? c1 ? l1 _ H1]; subst. inversion H1 as [|? c2 ? l2 _ H2]; subst.
  inversion H2 as [|? c3 ? l3 _ H3]; subst. inversion H3 as [|? c4 ? l4 _ H4]; subst.
  inversion H4 as [|? c5 ? l5 E5 H5]; subst. inversion H5; subst.
  exists [c1; c2; c3; c4], c5. split; [reflexivity|].
  now apply (chr_eqb_nonspace "e").
Qed.

(** ** Consequences of the shape *)

(** A heading is not empty and has no blank at either end. *)
Lemma shape_edges pv w g :
  heading_shape pv w g ->
  (exists x w', w = x :: w' /\ isspace x = false) /\
  (exists front y, w = front ++ [y] /\ isspace y = false).
Proof.
  intros [_ (name & g1 & ws1 & kw & ws2 & g2 & suf & ws3 & hse &
             -> & _ & Hname & Hg1 & _ & _ & _ & _ & _ & _ & Hhse)].
  split.
  - destruct (planet_first_letter _ _ Hname Hg1) as (x & g1' & -> & Hx).
    exists x. eexists. split; [reflexivity|exact Hx].
  - destruct (house_last_letter _ Hhse) as (front & y & -> & Hy).
    exists (g1 ++ ws1 ++ kw ++ ws2 ++ g2 ++ suf ++ ws3 ++ front), y.
    split; [|exact Hy]. now rewrite <- !app_assoc.
Qed.

(** [int] reads a run of digits within the digit limit, and raises on
    a longer one. *)
Lemma int_digits g2 :
  g2 <> [] -> forallb isdigit g2 = true ->
  int g2 = if (length g2 <=? max_str_digits)%nat
           then Ok (fold_left (fun acc c => 10 * acc + digit_value c) g2 0)
           else Raise ValueError.
Proof.
  intros Hne Hd. unfold int. destruct g2; [contradiction|]. now rewrite Hd.
Qed.

(** The heading that the loop body builds from a match of the pattern
    carries the offsets and text of the match and one of the nine planet
    names. *)
Lemma heading_of_match_fields m pv h :
  sem planet_house_pattern pv (m_group0 m) [] (m_groups m) ->
  heading_of_match m = Ok h ->
  start_pos h = m_start m /\ end_pos h = m_end m /\
  match_text h = m_group0 m /\ In (planet h) PLANETS.
Proof.
  intros H. apply pattern_shape in H.
  destruct H as [_ (name & g1 & ws1 & kw & ws2 & g2 & suf & ws3 & hse &
                    _ & Hg & Hname & Hg1 & _)].
  unfold heading_of_match, group_str, group. rewrite Hg.
  cbn [lookup Nat.eqb bind].
  destruct (if PyStr.eqb (upper g2) (lit "I") then Ok 1 else int g2) as [n|e];
    cbn [bind]; [|discriminate].
  intros [= <-]. cbn [start_pos end_pos match_text planet].
  repeat split. now rewrite (planet_capitalized name g1).
Qed.

(** ** The scan *)

Lemma char_before_app pre s : char_before (pre ++ s) (length pre) = last_char None pre.
Proof.
  unfold char_before.
  now rewrite firstn_app, firstn_all, Nat.sub_diag, firstn_O, app_nil_r.
Qed.

Lemma chain_weaken r text lo lo' ms :
  (lo' <= lo)%nat -> chain r text lo ms -> chain r text lo' ms.
Proof.
  destruct ms as [|m ms]; simpl; [auto|]. intros Hle (H1 & H2 & H3).
  split; [lia|]. split; assumption.
Qed.

Lemma match_here_located r pre s m :
  match_here r (last_char None pre) (length pre) s = Some m ->
  m_start m = length pre /\ located r (pre ++ s) m.
Proof.
  intros H. apply match_here_sound in H. destruct H as (Hs & He & Hsplit & Hsem).
  split; [exact Hs|]. unfold located. rewrite Hs, He, char_before_app.
  repeat split; auto.
  - rewrite skipn_prefix.
    rewrite skipn_app, skipn_all2 by lia.
    replace (length pre + length (m_group0 m) - length pre)%nat
      with (length (m_group0 m)) by lia.
    exact Hsplit.
  - assert (length (m_group0 m) <= length s)%nat
      by (rewrite Hsplit, length_app; lia).
    rewrite length_app. lia.
Qed.

Lemma scan_chain r : forall s pre skip,
  chain r (pre ++ s) (length pre + skip)
    (scan r (last_char None pre) (length pre) skip s).
Proof.
  induction s as [|x s IH]; intros pre skip; simpl.
  - destruct skip; [|exact I].
    destruct (match_here r (last_char None pre) (length pre) []) as [m|] eqn:E;
      [|exact I].
    apply match_here_located in E. destruct E as [Hs Hloc].
    simpl. split; [lia|]. split; [exact Hloc|exact I].
  - assert (Hnext : forall n,
        chain r (pre ++ x :: s) (S (length pre) + n)
          (scan r (Some x) (S (length pre)) n s)).
    { intros n. specialize (IH (pre ++ [x]) n).
      rewrite <- app_assoc, length_app, last_char_app in IH. simpl in IH.
      now rewrite Nat.add_1_r in IH. }
    destruct skip as [|n].
    + destruct (match_here r (last_char None pre) (length pre) (x :: s))
        as [m|] eqn:E.
      * apply match_here_located in E. destruct E as [Hs Hloc].
        simpl. split; [lia|]. split; [exact Hloc|].
        eapply chain_weaken; [|apply Hnext].
        destruct Hloc as (He & _). lia.
      * eapply chain_weaken; [|apply Hnext]. lia.
    + eapply chain_weaken; [|apply Hnext]. lia.
Qed.

Lemma finditer_chain r text : chain r text 0 (finditer r text).
Proof. exact (scan_chain r text [] 0). Qed.

(** ** The heading occurrences of a document *)

Lemma collect_ascending text : forall ms lo hs,
  chain planet_house_pattern text lo ms ->
  collect ms = Ok hs -> ascending text lo hs.
Proof.
  induction ms as [|m ms IH]; intros lo hs H; cbn [collect].
  - intros [= <-]. exact I.
  - destruct H as (Hlo & (He & Ht & Hb & Hsem) & Hrest).
    destruct (heading_of_match m) as [h|e] eqn:Eh; cbn [bind]; [|discriminate].
    destruct (collect ms) as [hs'|e] eqn:Ec; cbn [bind]; [|discriminate].
    intros [= <-].
    destruct (heading_of_match_fields m _ h Hsem Eh) as (Hs & He' & Hm & Hp).
    pose proof (IH _ _ Hrest eq_refl) as Hasc.
    pose proof (pattern_shape _ _ _ Hsem) as Hshape.
    destruct (shape_edges _ _ _ Hshape) as [Hfirst Hlast].
    cbn [ascending].
    split; [lia|]. split; [|now rewrite He'].
    constructor; rewrite ?Hs, ?He', ?Hm; auto.
    exact (hs_bol _ _ _ Hshape).
Qed.

(** The occurrences that the heading matcher returns are in ascending
    order, disjoint and inside the document. *)
Lemma find_all_ascending text hs :
  find_all_planet_house_headings text = Ok hs -> ascending text 0 hs.
Proof. apply collect_ascending, finditer_chain. Qed.

Lemma heading_ok_nonempty text h :
  heading_ok text h -> (start_pos h < end_pos h)%nat.
Proof.
  intros [_ He _ _ (x & w' & Hw & _) _ _]. rewrite He, Hw. simpl. lia.
Qed.

Lemma ascending_Forall text : forall hs lo,
  ascending text lo hs -> Forall (heading_ok text) hs.
Proof.
  induction hs as [|h hs IH]; intros lo H; [constructor|].
  destruct H as (_ & Hok & H). constructor; [exact Hok|exact (IH _ H)].
Qed.

(** Every heading occurrence starts a line: it sits at offset 0 or
    right after a line feed, and its own first character is not a
    blank.  Blanks between the line start and the planet name are not
    skipped. *)
Lemma occurrences_start_lines text hs :
  find_all_planet_house_headings text = Ok hs ->
  Forall (fun h =>
            (char_before text (start_pos h) = None \/
             exists c, char_before text (start_pos h) = Some c /\ code c = 10%N) /\
            exists x w', match_text h = x :: w' /\ isspace x = false) hs.
Proof.
  intros H. pose proof (find_all_ascending text hs H) as Hasc.
  apply ascending_Forall in Hasc.
  eapply Forall_impl; [|exact Hasc].
  intros h Hok. split; [|exact (ok_first _ _ Hok)].
  pose proof (ok_bol _ _ Hok) as Hb. unfold at_bol in Hb.
  destruct (char_before text (start_pos h)) as [c|]; [|now left].
  right. exists c. split; [reflexivity|]. now apply N.eqb_eq.
Qed.

End ParserFacts.

(* ================================================================= *)
(** * Properties of the chunk extractor *)

Module ChunkerFacts.
Import PyStr Re ReSpec ReFacts RegexParser ParserSpec ParserFacts.
Import LalKitabChunker ChunkerSpec.

(** ** Slices *)

Lemma slice_app {A} (a b c : nat) (t : list A) :
  (a <= b)%nat -> (b <= c)%nat -> slice a b t ++ slice b c t = slice a c t.
Proof.
  intros Hab Hbc. unfold slice.
  assert (Hb : skipn b t = skipn (b - a) (skipn a t)).
  { rewrite skipn_skipn. f_equal. lia. }
  rewrite Hb.
  rewrite <- (firstn_skipn (b - a) (firstn (c - a) (skipn a t))).
  rewrite firstn_firstn, Nat.min_l by lia.
  rewrite skipn_firstn_comm.
  now replace (c - a - (b - a))%nat with (c - b)%nat by lia.
Qed.

Lemma slice_to_end {A} (a : nat) (t : list A) : slice a (length t) t = skipn a t.
Proof.
  unfold slice. rewrite <- length_skipn. apply firstn_all.
Qed.

(** ** Stripping *)

Lemma lstrip_app_nonspace (a : str) (y : ascii) (b : str) :
  isspace y = false -> exists a', lstrip (a ++ y :: b) = a' ++ y :: b.
Proof.
  intros Hy. induction a as [|x a IH]; simpl.
  - rewrite Hy. now exists [].
  - destruct (isspace x); [exact IH|]. now exists (x :: a).
Qed.

(** Stripping keeps a leading text that has no blank at either end. *)
Lemma strip_keeps_prefix (w u : str) :
  (exists x w', w = x :: w' /\ isspace x = false) ->
  (exists front y, w = front ++ [y] /\ isspace y = false) ->
  exists u', strip (w ++ u) = w ++ u'.
Proof.
  intros (x & w' & Hw & Hx) (front & y & Hw' & Hy).
  unfold strip, rstrip.
  assert (Hl : lstrip (w ++ u) = w ++ u).
  { rewrite Hw. simpl. now rewrite Hx. }
  rewrite Hl, rev_app_distr, Hw', rev_app_distr. simpl.
  destruct (lstrip_app_nonspace (rev u) y (rev front) Hy) as [a' ->].
  exists (rev a'). rewrite rev_app_distr. simpl. now rewrite rev_involutive.
Qed.

(** ** The spans of the chunks *)

Lemma spans_length text hs : length (spans text hs) = length hs.
Proof. induction hs; simpl; auto. Qed.

Lemma chunks_of_length text hs : length (chunks_of text hs) = length hs.
Proof.
  unfold chunks_of. rewrite length_map, length_combine, spans_length. lia.
Qed.

Lemma tiles_le lo hi sp : tiles lo hi sp -> (lo <= hi)%nat.
Proof.
  revert lo. induction sp as [|[a b] sp IH]; simpl; intros lo H.
  - lia.
  - destruct H as (-> & Hab & H). apply IH in H. lia.
Qed.

(** Tiling spans cover [lo, hi) of the text without gap or overlap. *)
Lemma tiles_cover (text : str) lo hi sp :
  tiles lo hi sp ->
  concat (map (fun ab => slice (fst ab) (snd ab) text) sp) = slice lo hi text.
Proof.
  revert lo. induction sp as [|[a b] sp IH]; simpl; intros lo H.
  - subst. unfold slice. now rewrite Nat.sub_diag.
  - destruct H as (-> & Hab & H). rewrite (IH _ H).
    apply slice_app; [lia|]. now apply tiles_le in H.
Qed.

Lemma ascending_tiles text : forall hs lo h0,
  ascending text lo (h0 :: hs) ->
  tiles (start_pos h0) (length text) (spans text (h0 :: hs)).
Proof.
  induction hs as [|h1 hs IH]; intros lo h0 (Hlo & Hok & Hrest).
  - simpl. split; [reflexivity|]. split; [|reflexivity].
    pose proof (heading_ok_nonempty _ _ Hok). pose proof (ok_bound _ _ Hok). lia.
  - change (spans text (h0 :: h1 :: hs))
      with ((start_pos h0, start_pos h1) :: spans text (h1 :: hs)).
    simpl tiles. split; [reflexivity|]. split.
    + pose proof (heading_ok_nonempty _ _ Hok). destruct Hrest as (H1 & _). lia.
    + exact (IH _ _ Hrest).
Qed.

(** ** The loop *)

Lemma chunks_loop_spec text headings : forall suffix prefix,
  headings = prefix ++ suffix ->
  chunks_loop text headings (combine (seq (length prefix) (length suffix)) suffix)
  = Ok (chunks_of text suffix).
Proof.
  induction suffix as [|h suffix IH]; intros prefix Hh; [reflexivity|].
  simpl combine. simpl chunks_loop.
  assert (Hat : chunk_at text headings (length prefix) h
                = Ok (chunk_of_span text h
                        (start_pos h, match suffix with
                                      | [] => length text
                                      | h' :: _ => start_pos h'
                                      end))).
  { unfold chunk_at, getitem_list. rewrite Hh, length_app.
    destruct suffix as [|h' suffix]; cbn [length].
    - destruct (Nat.ltb_spec (length prefix) (length prefix + 1 - 1)); [lia|].
      reflexivity.
    - destruct (Nat.ltb_spec (length prefix)
                  (length prefix + S (S (length suffix)) - 1)); [|lia].
      rewrite nth_error_app2 by lia.
      replace (length prefix + 1 - length prefix)%nat with 1%nat by lia.
      reflexivity. }
  rewrite Hat. cbn [bind].
  specialize (IH (prefix ++ [h])). rewrite length_app in IH. simpl in IH.
  rewrite Nat.add_1_r in IH. rewrite IH; [reflexivity|].
  now rewrite <- app_assoc.
Qed.

Lemma extract_chunks_spec text hs :
  find_all_planet_house_headings text = Ok hs ->
  extract_chunks text = Ok (chunks_of text hs).
Proof.
  intros H. unfold extract_chunks. rewrite H. cbn [bind].
  destruct hs as [|h hs]; [reflexivity|].
  exact (chunks_loop_spec text (h :: hs) (h :: hs) [] eq_refl).
Qed.

(** C2.  Whatever sequence of heading occurrences the matcher returns
    for a document, [extract_chunks] returns, without raising, one chunk
    per occurrence, each built from the span that runs from the
    occurrence's start to the next occurrence's start, or to the end of
    the document for the last one ([chunks_of]); these spans are not
    empty and each starts where the previous one ends, the first at the
    first heading's start and the last ending at the end of the
    document, so their texts concatenate to that part of the document;
    and for an empty sequence the chunk list is empty. *)
Theorem extract_chunks_spans (text : str) (hs : list RegexParser.heading) :
  find_all_planet_house_headings text = Ok hs ->
  extract_chunks text = Ok (chunks_of text hs) /\
  length (chunks_of text hs) = length hs /\
  Forall2 (fun hab c =>
             planet c = RegexParser.planet (fst hab) /\
             house c = RegexParser.house (fst hab) /\
             heading c = match_text (fst hab) /\
             content c = strip (slice (fst (snd hab)) (snd (snd hab)) text) /\
             char_count c = length (content c))
          (combine hs (spans text hs)) (chunks_of text hs) /\
  match hs with
  | [] => extract_chunks text = Ok []
  | h0 :: _ =>
      tiles (start_pos h0) (length text) (spans text hs) /\
      concat (map (fun ab => slice (fst ab) (snd ab) text) (spans text hs))
      = skipn (start_pos h0) text
  end.
Proof.
  intros Hfind. pose proof (find_all_ascending text hs Hfind) as Hasc.
  split; [now apply extract_chunks_spec|].
  split; [apply chunks_of_length|].
  split.
  { unfold chunks_of. induction (combine hs (spans text hs)) as [|hab l IH];
      cbn [map]; constructor; [|exact IH].
    unfold chunk_of_span. cbn [planet house heading content char_count].
    repeat split. }
  destruct hs as [|h0 hs].
  - now rewrite (extract_chunks_spec text [] Hfind).
  - pose proof (ascending_tiles _ _ _ _ Hasc) as Ht. split; [exact Ht|].
    rewrite (tiles_cover text _ _ _ Ht). apply slice_to_end.
Qed.

Lemma extract_chunks_spans_witness :
  extract_chunks chunker_sample_text
  = Ok (chunks_of chunker_sample_text chunker_sample_headings) /\
  spans chunker_sample_text chunker_sample_headings
  = [(1, 101); (101, 175); (175, 257)]%nat /\
  tiles 1 257 (spans chunker_sample_text chunker_sample_headings).
Proof.
  pose proof (extract_chunks_spans chunker_sample_text chunker_sample_headings
                eq_refl) as (Hx & _ & _ & Ht & _).
  split; [exact Hx|]. split; [reflexivity|exact Ht].
Defined.

(** ** Content and heading *)

(** A chunk whose span reaches at least to the end of its heading
    starts, after stripping, with that heading. *)
Lemma chunk_keeps_heading text (h : RegexParser.heading) (b : nat) :
  heading_ok text h -> (end_pos h <= b)%nat ->
  exists t, content (chunk_of_span text h (start_pos h, b)) = match_text h ++ t.
Proof.
  intros Hok Hb. unfold chunk_of_span. cbn [content fst snd]. unfold slice.
  rewrite (ok_text _ _ Hok).
  pose proof (ok_end _ _ Hok) as He.
  replace (b - start_pos h)%nat
    with (length (match_text h) + (b - end_pos h))%nat by lia.
  rewrite firstn_app_2.
  apply strip_keeps_prefix; [exact (ok_first _ _ Hok)|exact (ok_last _ _ Hok)].
Qed.

Lemma chunks_of_heading_leads text : forall hs lo,
  ascending text lo hs -> Forall heading_leads (chunks_of text hs).
Proof.
  induction hs as [|h hs IH]; intros lo Hasc; [constructor|].
  destruct Hasc as (_ & Hok & Hrest).
  change (chunks_of text (h :: hs))
    with (chunk_of_span text h
            (start_pos h, match hs with
                          | [] => length text
                          | h' :: _ => start_pos h'
                          end) :: chunks_of text hs).
  constructor; [|exact (IH _ Hrest)].
  assert (Hb : (end_pos h <= match hs with
                              | [] => length text
                              | h' :: _ => start_pos h'
                              end)%nat).
  { destruct hs as [|h' hs']; [exact (ok_bound _ _ Hok)|].
    now destruct Hrest as (H1 & _). }
  destruct (chunk_keeps_heading text h _ Hok Hb) as [t Ht].
  unfold heading_leads. split; [|split].
  - exists t. exact Ht.
  - rewrite Ht. cbn [heading chunk_of_span]. rewrite length_app. lia.
  - reflexivity.
Qed.

Lemma chunks_of_chunk_for text : forall hs lo,
  ascending text lo hs -> Forall2 chunk_for hs (chunks_of text hs).
Proof.
  intros hs lo Hasc.
  pose proof (chunks_of_heading_leads text hs lo Hasc) as Hl.
  clear Hasc. induction hs as [|h hs IH]; [constructor|].
  change (chunks_of text (h :: hs))
    with (chunk_of_span text h
            (start_pos h, match hs with
                          | [] => length text
                          | h' :: _ => start_pos h'
                          end) :: chunks_of text hs) in *.
  inversion Hl as [|? ? Hc Hcs]; subst.
  constructor; [|exact (IH Hcs)].
  unfold chunk_for. repeat split; try reflexivity; apply Hc.
Qed.

(** C8.  Every chunk that [extract_chunks] produces was cut for one of
    the occurrences that the matcher returned, in order; its heading is
    the matched text of that occurrence, its content, after the
    trimming, still starts with that heading, so the content is at least
    as long as the heading, and [char_count] is the length of the
    trimmed content. *)
Theorem chunk_content_covers_heading (text : str) (cs : list chunk) :
  extract_chunks text = Ok cs ->
  (exists hs,
     find_all_planet_house_headings text = Ok hs /\
     Forall2 chunk_for hs cs) /\
  Forall (fun c =>
            (exists t, content c = heading c ++ t) /\
            (length (heading c) <= length (content c))%nat /\
            char_count c = length (content c)) cs.
Proof.
  intros Hx.
  destruct (find_all_planet_house_headings text) as [hs|e] eqn:Hfind.
  - rewrite (extract_chunks_spec text hs Hfind) in Hx. injection Hx as <-.
    pose proof (find_all_ascending text hs Hfind) as Hasc.
    split.
    + exists hs. split; [reflexivity|]. exact (chunks_of_chunk_for text hs 0 Hasc).
    + exact (chunks_of_heading_leads text hs 0 Hasc).
  - unfold extract_chunks in Hx. rewrite Hfind in Hx. discriminate Hx.
Qed.

Lemma chunk_content_covers_heading_witness :
  Forall (fun c =>
            (exists t, content c = heading c ++ t) /\
            (length (heading c) <= length (content c))%nat /\
            char_count c = length (content c))
         (chunks_of chunker_sample_text chunker_sample_headings).
Proof.
  exact (proj2 (chunk_content_covers_heading chunker_sample_text
                  (chunks_of chunker_sample_text chunker_sample_headings)
                  eq_refl)).
Defined.

End ChunkerFacts.

(* ================================================================= *)
(** * Properties of the ingestion path *)

Module IngestionFacts.
Import PyStr PyDict Re ReSpec ReFacts RegexParser ParserSpec ParserFacts.
Import IngestionSpec.

(** ** Decimal numerals *)

Lemma uint_digits (d : Decimal.uint) :
  forallb isdigit (lit (NilEmpty.string_of_uint d)) = true.
Proof. induction d; simpl; auto. Qed.

Lemma uint_value_acc (d : Decimal.uint) : forall acc : positive,
  digits_value (lit (NilEmpty.string_of_uint d)) (Zpos acc)
  = Zpos (Pos.of_uint_acc d acc).
Proof.
  unfold digits_value.
  induction d; intros acc;
    cbn [NilEmpty.string_of_uint lit list_ascii_of_string fold_left Pos.of_uint_acc];
    [reflexivity|..];
    fold (lit (NilEmpty.string_of_uint d)); rewrite <- IHd; f_equal;
    match goal with
    | |- context [digit_value ?c] =>
        let v := eval vm_compute in (digit_value c) in
        change (digit_value c) with v
    end; lia.
Qed.

Lemma uint_value (d : Decimal.uint) :
  digits_value (lit (NilEmpty.string_of_uint d)) 0 = Z.of_N (Pos.of_uint d).
Proof.
  induction d;
    cbn [NilEmpty.string_of_uint lit list_ascii_of_string fold_left Pos.of_uint
         digits_value];
    [reflexivity|exact IHd|..]; exact (uint_value_acc d _).
Qed.

(** The decimal numeral of a natural number is a non-empty run of
    digits whose value is the number. *)
Lemma of_int_numeral (n : Z) :
  0 <= n ->
  of_int n <> [] /\ forallb isdigit (of_int n) = true /\
  digits_value (of_int n) 0 = n.
Proof.
  intros Hn. unfold of_int. destruct n as [|p|p]; [| |lia].
  - repeat split. discriminate.
  - simpl. pose proof (Unsigned.to_uint_nonnil p) as Hnil.
    assert (E : NilZero.string_of_uint (Pos.to_uint p)
                = NilEmpty.string_of_uint (Pos.to_uint p)).
    { destruct (Pos.to_uint p); [contradiction|reflexivity..]. }
    rewrite E.
    assert (Hne : lit (NilEmpty.string_of_uint (Pos.to_uint p)) <> []).
    { destruct (Pos.to_uint p); [contradiction|discriminate..]. }
    split; [exact Hne|]. split; [apply uint_digits|].
    now rewrite uint_value, DecimalPos.Unsigned.of_to.
Qed.

(** [int] reads the numeral of a natural number back when it is within
    the digit limit, and raises on a longer one. *)
Lemma int_of_int (n : Z) :
  0 <= n ->
  int (of_int n) = if (length (of_int n) <=? max_str_digits)%nat
                   then Ok n else Raise ValueError.
Proof.
  intros Hn. destruct (of_int_numeral n Hn) as (Hne & Hds & Hv).
  rewrite (int_digits _ Hne Hds).
  destruct (length (of_int n) <=? max_str_digits)%nat; [|reflexivity].
  f_equal. exact Hv.
Qed.

(** A run of [k] digits has a value below [10 ^ k]. *)
Lemma digits_value_bound (s : str) : forall acc,
  forallb isdigit s = true -> 0 <= acc ->
  digits_value s acc < (acc + 1) * 10 ^ Z.of_nat (length s).
Proof.
  unfold digits_value.
  induction s as [|x s IH]; intros acc Hs Hacc; cbn [fold_left length].
  - simpl. lia.
  - cbn [forallb] in Hs. apply andb_true_iff in Hs. destruct Hs as [Hx Hs].
    assert (Hd : 0 <= digit_value x <= 9).
    { unfold isdigit, in_range in Hx. apply andb_true_iff in Hx.
      destruct Hx as [H1 H2]. apply N.leb_le in H1. apply N.leb_le in H2.
      unfold digit_value. lia. }
    specialize (IH (10 * acc + digit_value x) Hs ltac:(lia)).
    rewrite Nat2Z.inj_succ, Z.pow_succ_r by lia.
    assert (0 < 10 ^ Z.of_nat (length s)) by (apply Z.pow_pos_nonneg; lia).
    nia.
Qed.

(** A natural number from [10 ^ max_str_digits] on has a numeral longer
    than the digit limit. *)
Lemma of_int_long (n : Z) :
  10 ^ Z.of_nat max_str_digits <= n ->
  (max_str_digits < length (of_int n))%nat.
Proof.
  intros Hn.
  assert (H0 : 0 <= n).
  { assert (0 < 10 ^ Z.of_nat max_str_digits) by (apply Z.pow_pos_nonneg; lia). lia. }
  destruct (of_int_numeral n H0) as (_ & Hds & Hv).
  pose proof (digits_value_bound (of_int n) 0 Hds ltac:(lia)) as Hb.
  rewrite Hv in Hb.
  destruct (Nat.ltb_spec max_str_digits (length (of_int n))) as [H|H]; [exact H|].
  exfalso.
  assert (10 ^ Z.of_nat (length (of_int n)) <= 10 ^ Z.of_nat max_str_digits)
    by (apply Z.pow_le_mono_r; lia).
  lia.
Qed.

(** ** Running the pattern on a heading line *)

Lemma digit_not_space x : isdigit x = true -> isspace x = false.
Proof. each_ascii x; vm_compute; intros H; solve [reflexivity | discriminate H]. Qed.

(** A greedy repetition over a run of characters of the class that is
    followed by a character outside it takes the whole run, when the
    continuation accepts that. *)
Lemma star_takes_run p (w s : str) : forall c k res,
  rest c = w ++ s ->
  forallb p w = true ->
  match s with [] => True | y :: _ => p y = false end ->
  k (moved c w s) = Some res ->
  star p (w ++ s) c k = Some res.
Proof.
  induction w as [|x w IH]; intros c k res Hr Hw Hs Hk.
  - assert (E : moved c [] s = c).
    { unfold moved. destruct c as [p0 pv0 r0 g0]. simpl in *.
      now rewrite Nat.add_0_r, Hr. }
    rewrite E in Hk. simpl.
    destruct s as [|y s]; simpl; [exact Hk|]. now rewrite Hs.
  - simpl in Hw. apply andb_true_iff in Hw. destruct Hw as [Hx Hw].
    simpl. rewrite Hx.
    rewrite (IH (advance x (w ++ s) c) k res eq_refl Hw Hs); [reflexivity|].
    replace (moved (advance x (w ++ s) c) w s) with (moved c (x :: w) s); [exact Hk|].
    unfold moved, advance. simpl. f_equal. lia.
Qed.

Lemma run_heading_line (P ds : str) :
  In P PLANETS -> ds <> [] -> forallb isdigit ds = true ->
  run planet_house_pattern
    {| pos := 0; prev := None;
       rest := P ++ lit " in " ++ ds ++ lit "th House"; caps := [] |} Some
  = Some {| pos := length (P ++ lit " in " ++ ds ++ lit "th House");
            prev := Some "e"%char; rest := [];
            caps := [(2%nat, ds); (1%nat, P)] |}.
Proof.
  intros HP Hne Hds.
  destruct ds as [|d ds]; [contradiction|].
  simpl in Hds. apply andb_true_iff in Hds. destruct Hds as [Hd Hds].
  pose proof (digit_not_space d Hd) as Hsp.
  simpl in HP.
  repeat (destruct HP as [<-|HP];
    [ cbn; rewrite Hsp; cbn; rewrite Hd; cbn;
      erewrite (star_takes_run isdigit ds (lit "th House"));
        [ | reflexivity | exact Hds | reflexivity | cbn; reflexivity ];
      unfold advance; cbn [pos prev rest caps];
      rewrite length_app, (firstn_prefix ds _ _ 0) by lia;
      repeat f_equal; simpl; lia
    | ]).
  destruct HP.
Qed.

Lemma match_here_heading_line (P ds : str) :
  In P PLANETS -> ds <> [] -> forallb isdigit ds = true ->
  let doc := P ++ lit " in " ++ ds ++ lit "th House" in
  match_here planet_house_pattern None 0 doc
  = Some {| m_start := 0; m_end := length doc; m_group0 := doc;
            m_groups := [(2%nat, ds); (1%nat, P)] |}.
Proof.
  intros HP Hne Hds doc. unfold match_here. subst doc.
  rewrite (run_heading_line P ds HP Hne Hds).
  cbn [pos caps]. now rewrite Nat.sub_0_r, firstn_all.
Qed.

Lemma match_here_empty pv p : match_here planet_house_pattern pv p [] = None.
Proof. unfold match_here. cbn. now destruct (at_bol pv). Qed.

(** Once the scan is inside a match that reaches the end of the text it
    finds nothing more. *)
Lemma scan_inside_last_match : forall s pv p,
  scan planet_house_pattern pv p (length s) s = [].
Proof.
  induction s as [|x s IH]; intros pv p; simpl.
  - now rewrite match_here_empty.
  - apply IH.
Qed.

Lemma finditer_heading_line (P ds : str) :
  In P PLANETS -> ds <> [] -> forallb isdigit ds = true ->
  let doc := P ++ lit " in " ++ ds ++ lit "th House" in
  finditer planet_house_pattern doc
  = [{| m_start := 0; m_end := length doc; m_group0 := doc;
        m_groups := [(2%nat, ds); (1%nat, P)] |}].
Proof.
  intros HP Hne Hds doc. unfold finditer.
  pose proof (match_here_heading_line P ds HP Hne Hds) as Hm. fold doc in Hm.
  destruct doc as [|x s] eqn:Edoc.
  - exfalso. subst doc. simpl in HP.
    repeat (destruct HP as [<-|HP]; [discriminate Edoc|]). destruct HP.
  - cbn [scan]. rewrite Hm. cbn [m_end]. f_equal.
    replace (Nat.pred (length (x :: s) - 0)) with (length s) by (simpl; lia).
    apply scan_inside_last_match.
Qed.

Lemma capitalize_planet P : In P PLANETS -> capitalize P = P.
Proof.
  simpl. intros HP.
  repeat (destruct HP as [<-|HP]; [reflexivity|]). destruct HP.
Qed.

Lemma upper_digit x : isdigit x = true -> upper_char x = x.
Proof. each_ascii x; vm_compute; intros H; solve [reflexivity | discriminate H]. Qed.

Lemma digits_not_I ds :
  forallb isdigit ds = true -> PyStr.eqb (upper ds) (lit "I") = false.
Proof.
  intros Hds. apply DictFacts.eqb_neq. intros E.
  destruct ds as [|d ds]; [discriminate|].
  simpl in Hds. apply andb_true_iff in Hds. destruct Hds as [Hd _].
  simpl in E. injection E as E _. rewrite (upper_digit d Hd) in E.
  subst d. discriminate.
Qed.

(** A text without a blank at either end is its own [strip]. *)
Lemma strip_id (w : str) :
  (exists x w', w = x :: w' /\ isspace x = false) ->
  (exists front y, w = front ++ [y] /\ isspace y = false) ->
  strip w = w.
Proof.
  intros (x & w' & Hw & Hx) (front & y & Hw' & Hy).
  unfold strip, rstrip.
  assert (Hl : lstrip w = w) by (rewrite Hw; simpl; now rewrite Hx).
  rewrite Hl. rewrite Hw' at 1. rewrite rev_app_distr. simpl. rewrite Hy.
  change (y :: rev front) with (rev [y] ++ rev front).
  now rewrite <- rev_app_distr, rev_involutive.
Qed.

(** ** From the heading line to the store *)

(** The matcher finds the heading line, and the loop body then returns
    its occurrence or raises, as the numeral is within the digit limit
    or not. *)
Lemma find_all_heading_line (P : str) (n : Z) :
  In P PLANETS -> 0 <= n ->
  find_all_planet_house_headings (heading_line P n)
  = if (length (of_int n) <=? max_str_digits)%nat
    then Ok [line_heading P n] else Raise ValueError.
Proof.
  intros HP Hn. destruct (of_int_numeral n Hn) as (Hne & Hds & _).
  unfold find_all_planet_house_headings, heading_line.
  rewrite (finditer_heading_line P (of_int n) HP Hne Hds).
  cbn [collect]. unfold heading_of_match, group_str, group.
  cbn [m_groups lookup Nat.eqb bind m_start m_end m_group0].
  rewrite (digits_not_I _ Hds), (int_of_int n Hn), (capitalize_planet P HP).
  destruct (length (of_int n) <=? max_str_digits)%nat; reflexivity.
Qed.

Lemma heading_line_edges (P : str) (n : Z) :
  In P PLANETS ->
  (exists x w', heading_line P n = x :: w' /\ isspace x = false) /\
  (exists front y, heading_line P n = front ++ [y] /\ isspace y = false).
Proof.
  intros HP. split.
  - unfold heading_line. simpl in HP.
    repeat (destruct HP as [<-|HP];
            [eexists; eexists; split; [reflexivity|reflexivity]|]).
    destruct HP.
  - exists (P ++ lit " in " ++ of_int n ++ lit "th Hous"), "e"%char.
    split; [|reflexivity]. unfold heading_line. now rewrite <- !app_assoc.
Qed.

Lemma extract_chunks_heading_line (P : str) (n : Z) :
  In P PLANETS -> 0 <= n -> (length (of_int n) <= max_str_digits)%nat ->
  LalKitabChunker.extract_chunks (heading_line P n) = Ok [line_chunk P n].
Proof.
  intros HP Hn Hlen.
  assert (Hfind : find_all_planet_house_headings (heading_line P n)
                  = Ok [line_heading P n]).
  { rewrite (find_all_heading_line P n HP Hn).
    apply Nat.leb_le in Hlen. now rewrite Hlen. }
  rewrite (ChunkerFacts.extract_chunks_spec _ _ Hfind).
  unfold ChunkerSpec.chunks_of, ChunkerSpec.chunk_of_span, line_chunk.
  cbn [ChunkerSpec.spans combine map fst snd line_heading start_pos
       RegexParser.planet RegexParser.house match_text].
  rewrite ChunkerFacts.slice_to_end. cbn [skipn].
  destruct (heading_line_edges P n HP) as [Hfirst Hlast].
  now rewrite (strip_id _ Hfirst Hlast).
Qed.

(** ** Numerals within the digit limit *)

Lemma digits_value_lower (s : str) : forall acc,
  forallb isdigit s = true -> 0 <= acc ->
  acc * 10 ^ Z.of_nat (length s) <= digits_value s acc.
Proof.
  unfold digits_value.
  induction s as [|x s IH]; intros acc Hs Hacc; cbn [fold_left length].
  - simpl. lia.
  - cbn [forallb] in Hs. apply andb_true_iff in Hs. destruct Hs as [Hx Hs].
    assert (Hd : 0 <= digit_value x <= 9).
    { unfold isdigit, in_range in Hx. apply andb_true_iff in Hx.
      destruct Hx as [H1 H2]. apply N.leb_le in H1. apply N.leb_le in H2.
      unfold digit_value. lia. }
    specialize (IH (10 * acc + digit_value x) Hs ltac:(lia)).
    rewrite Nat2Z.inj_succ, Z.pow_succ_r by lia.
    assert (0 < 10 ^ Z.of_nat (length s)) by (apply Z.pow_pos_nonneg; lia).
    nia.
Qed.

(** The numeral of a positive number has no leading zero. *)
Lemma to_uint_normal (p : positive) : forall d', Pos.to_uint p <> Decimal.D0 d'.
Proof.
  intros d' E.
  pose proof (DecimalPos.Unsigned.to_of (Pos.to_uint p)) as Hn.
  rewrite DecimalPos.Unsigned.of_to in Hn. cbn [N.to_uint] in Hn.
  assert (Hz : Decimal.nzhead (Pos.to_uint p) <> Decimal.Nil).
  { intros Hnil. apply DecimalFacts.unorm_0 in Hnil.
    apply (DecimalPos.Unsigned.to_uint_nonzero p). congruence. }
  rewrite (DecimalFacts.unorm_nzhead _ Hz) in Hn.
  apply (DecimalFacts.nzhead_nonzero (Pos.to_uint p) d'). congruence.
Qed.

(** A natural number below [10 ^ k], for [k >= 1], has a numeral of at
    most [k] digits. *)
Lemma of_int_short (n : Z) (k : nat) :
  (1 <= k)%nat -> 0 <= n < 10 ^ Z.of_nat k -> (length (of_int n) <= k)%nat.
Proof.
  intros Hk [Hn Hlt]. destruct n as [|p|p]; [exact Hk| |lia].
  destruct (of_int_numeral (Zpos p) Hn) as (_ & Hds & Hv).
  revert Hds Hv. unfold of_int. cbn [Z.to_int].
  pose proof (to_uint_normal p) as Hnorm.
  pose proof (Unsigned.to_uint_nonnil p) as Hnil.
  assert (E : NilZero.string_of_uint (Pos.to_uint p)
              = NilEmpty.string_of_uint (Pos.to_uint p)).
  { destruct (Pos.to_uint p); [contradiction|reflexivity..]. }
  cbn [NilZero.string_of_int]. rewrite E.
  destruct (Pos.to_uint p) as [|d|d|d|d|d|d|d|d|d|d];
    [contradiction|exfalso; exact (Hnorm d eq_refl)|..];
    cbn [NilEmpty.string_of_uint lit list_ascii_of_string forallb length];
    fold (lit (NilEmpty.string_of_uint d));
    intros Hds Hv; apply andb_true_iff in Hds; destruct Hds as [_ Hds];
    unfold digits_value in Hv; cbn [fold_left] in Hv;
    match type of Hv with
    | fold_left _ _ ?acc = _ =>
        let v := eval vm_compute in acc in change acc with v in Hv;
        pose proof (digits_value_lower (lit (NilEmpty.string_of_uint d)) v Hds
                      ltac:(lia)) as Hlow
    end;
    unfold digits_value in Hlow; rewrite Hv in Hlow;
    assert (Hpow : 0 < 10 ^ Z.of_nat (length (lit (NilEmpty.string_of_uint d))))
      by (apply Z.pow_pos_nonneg; lia);
    apply Nat.nlt_ge; intros Hgt;
    assert (10 ^ Z.of_nat k
            <= 10 ^ Z.of_nat (length (lit (NilEmpty.string_of_uint d))))
      by (apply Z.pow_le_mono_r; lia);
    nia.
Qed.

Lemma str_of_int_short (n : Z) :
  0 <= n -> (length (of_int n) <= max_str_digits)%nat ->
  str_of_int n = Ok (of_int n).
Proof.
  intros Hn Hlen. unfold str_of_int. rewrite Z.abs_eq by exact Hn.
  apply Nat.leb_le in Hlen. now rewrite Hlen.
Qed.

Lemma vector_of_line_chunk (P : str) (n : Z) (embedding : list PyFloat.float) :
  0 <= n -> (length (of_int n) <= max_str_digits)%nat ->
  PineconeClient.vector_of_chunk
    {| EmbeddingsGenerator.chunk := line_chunk P n;
       EmbeddingsGenerator.embedding := embedding |}
  = Ok (line_vector P n embedding).
Proof.
  intros Hn Hlen. unfold PineconeClient.vector_of_chunk.
  cbn [EmbeddingsGenerator.chunk line_chunk LalKitabChunker.house].
  rewrite (str_of_int_short n Hn Hlen). reflexivity.
Qed.

Section Store.

Variable embed_content : str -> result (list PyFloat.float).
Variable Index : Type.
Variable index_upsert : Index -> list PineconeClient.vector -> result Index.

Lemma upsert_single_chunk self idx (c : EmbeddingsGenerator.embedded_chunk)
    (v : PineconeClient.vector) (batch_size : nat) :
  PineconeClient.index Index self = Some idx ->
  PineconeClient.vector_of_chunk c = Ok v ->
  batch_size <> 0%nat ->
  PineconeClient.upsert_chunks Index index_upsert self [c] batch_size
  = (idx' <- index_upsert idx [v] ;;
     Ok (idx', {| PineconeClient.total_uploaded := 1;
                  PineconeClient.stats_index_name :=
                    PineconeClient.index_name Index self |})).
Proof.
  intros Hidx Hv Hbs. unfold PineconeClient.upsert_chunks. rewrite Hidx.
  cbn [PineconeClient.vectors_of_chunks]. rewrite Hv. cbn [bind].
  destruct batch_size as [|k]; [contradiction|].
  unfold PineconeClient.range_step. cbn [map length].
  replace ((1 + S k - 1) / S k)%nat with 1%nat
    by (replace (1 + S k - 1)%nat with (S k) by lia;
        symmetry; apply Nat.div_same; lia).
  cbn [seq map PineconeClient.upload Nat.mul].
  unfold slice. cbn [skipn Nat.add Nat.sub firstn length].
  rewrite firstn_nil.
  destruct (index_upsert idx [v]); reflexivity.
Qed.

(** C10, amended.  For each of the nine planets [P] and every natural
    number [n] below [10 ^ 4300], that is, with a numeral of at most
    4300 digits, the one-line document [<P> in <n>th House] yields one
    heading occurrence and one chunk with house [n], and the ingestion
    pipeline submits it to the store under the id [<p>_house_<n>] with
    house [n] in its metadata: nothing between the parser and
    [index.upsert] looks at the range of the house. *)
Theorem ingestion_keeps_any_house (P : str) (n : Z) :
  In P PLANETS -> 0 <= n < 10 ^ Z.of_nat max_str_digits ->
  find_all_planet_house_headings (heading_line P n) = Ok [line_heading P n] /\
  LalKitabChunker.extract_chunks (heading_line P n) = Ok [line_chunk P n] /\
  forall self idx embedding,
    PineconeClient.index Index self = Some idx ->
    PineconeClient.vector_of_chunk
      {| EmbeddingsGenerator.chunk := line_chunk P n;
         EmbeddingsGenerator.embedding := embedding |}
    = Ok (line_vector P n embedding) /\
    (forall batch_size, batch_size <> 0%nat ->
       PineconeClient.upsert_chunks Index index_upsert self
         [{| EmbeddingsGenerator.chunk := line_chunk P n;
             EmbeddingsGenerator.embedding := embedding |}] batch_size
       = (idx' <- index_upsert idx [line_vector P n embedding] ;;
          Ok (idx', {| PineconeClient.total_uploaded := 1;
                       PineconeClient.stats_index_name :=
                         PineconeClient.index_name Index self |}))) /\
    (embed_content (heading_line P n) = Ok embedding ->
     App.ingest_text embed_content Index index_upsert self (heading_line P n)
     = (idx' <- index_upsert idx [line_vector P n embedding] ;;
        Ok (idx', {| PineconeClient.total_uploaded := 1;
                     PineconeClient.stats_index_name :=
                       PineconeClient.index_name Index self |}))).
Proof.
  intros HP Hn.
  assert (H0 : 0 <= n) by lia.
  assert (Hlen : (length (of_int n) <= max_str_digits)%nat).
  { apply of_int_short; [unfold max_str_digits; lia|exact Hn]. }
  split.
  { rewrite (find_all_heading_line P n HP H0).
    apply Nat.leb_le in Hlen. now rewrite Hlen. }
  split; [now apply extract_chunks_heading_line|].
  intros self idx embedding Hidx.
  pose proof (vector_of_line_chunk P n embedding H0 Hlen) as Hv.
  split; [exact Hv|]. split.
  - intros batch_size Hbs. now rewrite (upsert_single_chunk self idx _ _ _ Hidx Hv).
  - intros Hemb. unfold App.ingest_text.
    rewrite (extract_chunks_heading_line P n HP H0 Hlen). cbn [bind].
    unfold EmbeddingsGenerator.embed_chunks.
    cbn [map LalKitabChunker.content line_chunk
         EmbeddingsGenerator.generate_embeddings_batch].
    unfold EmbeddingsGenerator.generate_embedding. rewrite Hemb.
    cbn [bind combine map fst snd].
    apply (upsert_single_chunk self idx _ _ _ Hidx Hv). discriminate.
Qed.

End Store.

Lemma ingestion_keeps_any_house_witness :
  LalKitabChunker.extract_chunks (lit "Sun in 13th House")
  = Ok [line_chunk (lit "Sun") 13] /\
  App.ingest_text stub_embed (list PineconeClient.vector) stub_upsert empty_store
    (lit "Sun in 13th House")
  = Ok ([line_vector (lit "Sun") 13 []],
        {| PineconeClient.total_uploaded := 1;
           PineconeClient.stats_index_name := lit "lal-kitab-rules" |}) /\
  PineconeClient.id (line_vector (lit "Sun") 13 []) = lit "sun_house_13".
Proof.
  assert (HP : In (lit "Sun") PLANETS) by (simpl; auto).
  assert (Hn : 0 <= 13 < 10 ^ Z.of_nat max_str_digits).
  { split; [lia|]. apply (Z.lt_le_trans _ (10 ^ 2)); [reflexivity|].
    apply Z.pow_le_mono_r; [lia|]. unfold max_str_digits. lia. }
  destruct (ingestion_keeps_any_house stub_embed (list PineconeClient.vector)
              stub_upsert (lit "Sun") 13 HP Hn) as (_ & Hchunks & Hstore).
  destruct (Hstore empty_store [] [] eq_refl) as (_ & _ & Hingest).
  split; [exact Hchunks|]. split; [|reflexivity].
  exact (Hingest eq_refl).
Defined.

(** C10, as stated, fails: for [n = 10 ^ 4300], whose numeral has 4301
    digits, the pattern matches the line [Sun in <n>th House] but
    [int], applied to the digits, raises [ValueError]; the matcher and
    the extractor raise it too, so the line yields neither an occurrence
    nor a chunk.  The same holds for every planet and every [n] from
    [10 ^ 4300] on. *)
Lemma ingestion_digit_limit_counterexample :
  find_all_planet_house_headings
    (heading_line (lit "Sun") (10 ^ Z.of_nat max_str_digits)) = Raise ValueError /\
  LalKitabChunker.extract_chunks
    (heading_line (lit "Sun") (10 ^ Z.of_nat max_str_digits)) = Raise ValueError /\
  (forall P n, In P PLANETS -> 10 ^ Z.of_nat max_str_digits <= n ->
     find_all_planet_house_headings (heading_line P n) = Raise ValueError).
Proof.
  assert (Hall : forall P n, In P PLANETS -> 10 ^ Z.of_nat max_str_digits <= n ->
            find_all_planet_house_headings (heading_line P n) = Raise ValueError).
  { intros P n HP Hn.
    assert (H0 : 0 <= n).
    { assert (0 < 10 ^ Z.of_nat max_str_digits) by (apply Z.pow_pos_nonneg; lia).
      lia. }
    rewrite (find_all_heading_line P n HP H0).
    pose proof (of_int_long n Hn) as Hlong.
    destruct (Nat.leb_spec (length (of_int n)) max_str_digits); [lia|reflexivity]. }
  assert (Hsun : find_all_planet_house_headings
                   (heading_line (lit "Sun") (10 ^ Z.of_nat max_str_digits))
                 = Raise ValueError).
  { apply Hall; [simpl; auto|lia]. }
  split; [exact Hsun|]. split; [|exact Hall].
  unfold LalKitabChunker.extract_chunks. now rewrite Hsun.
Qed.

(** C3.  A heading line that is indented is not matched: neither with
    leading spaces, nor with a leading tab, nor in the indented sample
    text at the end of [regex_parser.py]; the same line starting in the
    first column is matched, and the same words in the middle of a line
    are not. *)
Theorem indented_heading_not_matched :
  find_all_planet_house_headings (lit "    Sun in 1st House") = Ok [] /\
  find_all_planet_house_headings (tab ++ lit "Sun in 1st House") = Ok [] /\
  find_all_planet_house_headings sample_text = Ok [] /\
  find_all_planet_house_headings (lit "Sun in 1st House")
  = Ok [{| planet := lit "Sun"; house := 1; start_pos := 0; end_pos := 16;
           match_text := lit "Sun in 1st House" |}] /\
  find_all_planet_house_headings (lit "The Sun in 1st House is strong.") = Ok [].
Proof. repeat split; vm_compute; reflexivity. Qed.

End IngestionFacts.
